(** * sphinx-cmd [rm]: reference index, deletion engine and directory pruner

    A shallow embedding of [sphinx_cmd/commands/rm.py].  Paths are Python
    strings, the file system is an explicit value threaded through the
    commands, sets are [gset string], dictionaries that are only looked up are
    [gmap], and dictionaries that are iterated keep their insertion order as
    association lists.  Python leaves the order in which a set is iterated
    open; the model iterates [elements], and no proof uses more of that order
    than the members it lists.  Loops that the code does not bound ([while],
    recursion) take a bound on their iterations and end in [Timeout] when it
    is used up. *)

From Stdlib Require Import String Ascii.
From stdpp Require Import gmap strings list sorting.

#[local] Set Warnings "-clear-no-such-hyp".

Local Open Scope string_scope.
Local Open Scope list_scope.
Local Open Scope nat_scope.
Local Open Scope stdpp_scope.

(** ** Python strings *)

Module Str.

Definition sep : ascii := "/"%char.

Definition is_sep (c : ascii) : bool := Ascii.eqb c sep.

(** [s.count("/")] *)
Fixpoint count_sep (s : string) : nat :=
  match s with
  | EmptyString => 0
  | String c s' => (if is_sep c then 1 else 0) + count_sep s'
  end.

(** [s.split("/")] *)
Fixpoint split_sep (s : string) : list string :=
  match s with
  | EmptyString => [EmptyString]
  | String c s' =>
      if is_sep c then EmptyString :: split_sep s'
      else match split_sep s' with
           | [] => [String c EmptyString]
           | w :: ws => String c w :: ws
           end
  end.

(** ["/".join(comps)] *)
Fixpoint join_sep (comps : list string) : string :=
  match comps with
  | [] => EmptyString
  | [c] => c
  | c :: cs => c +:+ String sep (join_sep cs)
  end.

Fixpoint all_sep (s : string) : bool :=
  match s with
  | EmptyString => true
  | String c s' => is_sep c && all_sep s'
  end.

Fixpoint has_sep (s : string) : bool :=
  match s with
  | EmptyString => false
  | String c s' => is_sep c || has_sep s'
  end.

(** [s.rstrip("/")] *)
Fixpoint rstrip_sep (s : string) : string :=
  match s with
  | EmptyString => EmptyString
  | String c s' =>
      match rstrip_sep s' with
      | EmptyString => if is_sep c then EmptyString else String c EmptyString
      | r => String c r
      end
  end.

(** [s[: s.rfind("/") + 1]] *)
Fixpoint upto_last_sep (s : string) : string :=
  match s with
  | EmptyString => EmptyString
  | String c s' => if has_sep s then String c (upto_last_sep s') else EmptyString
  end.

(** [s[s.rfind("/") + 1 :]] *)
Fixpoint after_last_sep (s : string) : string :=
  match s with
  | EmptyString => EmptyString
  | String c s' => if has_sep s then after_last_sep s' else s
  end.

Definition startswith_sep (s : string) : bool :=
  match s with
  | String c _ => is_sep c
  | EmptyString => false
  end.

Fixpoint endswith_sep (s : string) : bool :=
  match s with
  | EmptyString => false
  | String c EmptyString => is_sep c
  | String _ s' => endswith_sep s'
  end.

(** [s.endswith(suffix)] *)
Fixpoint endswith (s suffix : string) : bool :=
  String.eqb s suffix ||
  match s with
  | EmptyString => false
  | String _ s' => endswith s' suffix
  end.

(** The white space [str.strip()] removes from an ASCII string. *)
Definition is_space (c : ascii) : bool :=
  match nat_of_ascii c with
  | 9 | 10 | 11 | 12 | 13 | 28 | 29 | 30 | 31 | 32 => true
  | _ => false
  end.

Fixpoint lstrip (s : string) : string :=
  match s with
  | EmptyString => EmptyString
  | String c s' => if is_space c then lstrip s' else s
  end.

Fixpoint rstrip (s : string) : string :=
  match s with
  | EmptyString => EmptyString
  | String c s' =>
      match rstrip s' with
      | EmptyString => if is_space c then EmptyString else String c EmptyString
      | r => String c r
      end
  end.

(** [s.strip()] *)
Definition strip (s : string) : string := rstrip (lstrip s).

(** Truth value of a string: the empty string is false. *)
Definition truthy (s : string) : bool :=
  match s with
  | EmptyString => false
  | String _ _ => true
  end.

End Str.

(** ** [os.path] on POSIX (posixpath.py) *)

Module OsPath.

(** [os.path.dirname] *)
Definition dirname (p : string) : string :=
  let head := Str.upto_last_sep p in
  if Str.truthy head && negb (Str.all_sep head) then Str.rstrip_sep head else head.

(** [os.path.basename] *)
Definition basename (p : string) : string := Str.after_last_sep p.

(** [os.path.isabs] *)
Definition isabs (p : string) : bool := Str.startswith_sep p.

(** [os.path.join(a, b)] *)
Definition join (a b : string) : string :=
  if Str.startswith_sep b then b
  else if negb (Str.truthy a) || Str.endswith_sep a then a +:+ b
  else a +:+ String Str.sep b.

(** The loop of [normpath] over the components; [new_comps] is kept in
    reverse. *)
Fixpoint norm_comps (initial_slashes : bool) (comps new_comps : list string)
  : list string :=
  match comps with
  | [] => rev new_comps
  | comp :: rest =>
      if String.eqb comp "" || String.eqb comp "." then
        norm_comps initial_slashes rest new_comps
      else if negb (String.eqb comp "..")
              || (negb initial_slashes && bool_decide (new_comps = []))
              || match new_comps with
                 | last :: _ => String.eqb last ".."
                 | [] => false
                 end
      then norm_comps initial_slashes rest (comp :: new_comps)
      else norm_comps initial_slashes rest (tail new_comps)
  end.

(** Number of leading slashes [normpath] keeps: two when the path starts
    with exactly two, else one or none. *)
Definition initial_slashes (p : string) : nat :=
  match p with
  | String a (String b (String c _)) =>
      if Str.is_sep a then
        if Str.is_sep b && negb (Str.is_sep c) then 2 else 1
      else 0
  | String a (String b EmptyString) =>
      if Str.is_sep a then if Str.is_sep b then 2 else 1 else 0
  | String a EmptyString => if Str.is_sep a then 1 else 0
  | EmptyString => 0
  end.

(** [os.path.normpath] *)
Definition normpath (p : string) : string :=
  if negb (Str.truthy p) then "."
  else
    let n := initial_slashes p in
    let comps := norm_comps (negb (n =? 0)) (Str.split_sep p) [] in
    let path := Str.join_sep comps in
    let path :=
      match n with
      | 0 => path
      | 1 => String Str.sep path
      | _ => String Str.sep (String Str.sep path)
      end in
    if Str.truthy path then path else ".".

(** [os.path.abspath] with the working directory made explicit. *)
Definition abspath (cwd p : string) : string :=
  if isabs p then normpath p else normpath (join cwd p).

End OsPath.

(** ** Python dictionaries that are iterated: insertion-ordered *)

Module Dict.
Section dict.
Context {V : Type}.

(** [d.get(k)] *)
Fixpoint get (d : list (string * V)) (k : string) : option V :=
  match d with
  | [] => None
  | (k', v) :: d' => if String.eqb k' k then Some v else get d' k
  end.

(** [d[k] = v]: an existing key keeps its position, a new key goes last. *)
Fixpoint set (d : list (string * V)) (k : string) (v : V) : list (string * V) :=
  match d with
  | [] => [(k, v)]
  | (k', v') :: d' =>
      if String.eqb k' k then (k, v) :: d' else (k', v') :: set d' k v
  end.

Definition keys (d : list (string * V)) : list string := d.*1.
End dict.
End Dict.

(** ** The file system

    Entries are keyed by their absolute normalised path; the order of the
    list is the order in which the operating system lists a directory.  A
    document's text is kept as what the directive patterns find in it: the
    occurrences in text order, each with its directive name and the text the
    pattern's group captures. *)

Inductive node :=
| Dir
| File (content : list (string * string)).

Record filesystem := {
  cwd : string;
  entries : list (string * node)
}.

Inductive exn :=
| FileNotFoundError
| IsADirectoryError
| NotADirectoryError
| DirectoryNotEmpty.

Module Os.

Definition resolve (fs : filesystem) (p : string) : string :=
  OsPath.abspath (cwd fs) p.

(** [os.stat]: the empty path names nothing. *)
Definition stat (fs : filesystem) (p : string) : option node :=
  if Str.truthy p then Dict.get (entries fs) (resolve fs p) else None.

(** [os.path.exists] *)
Definition path_exists (fs : filesystem) (p : string) : bool :=
  match stat fs p with
  | Some _ => true
  | None => false
  end.

(** [os.path.isfile] *)
Definition path_isfile (fs : filesystem) (p : string) : bool :=
  match stat fs p with
  | Some (File _) => true
  | _ => false
  end.

(** [os.path.isdir] *)
Definition path_isdir (fs : filesystem) (p : string) : bool :=
  match stat fs p with
  | Some Dir => true
  | _ => false
  end.

Definition child_of (d : string) (e : string * node) : bool :=
  String.eqb (OsPath.dirname e.1) d && negb (String.eqb e.1 d).

(** [os.listdir] of an existing directory. *)
Definition listdir (fs : filesystem) (p : string) : list string :=
  map (λ e, OsPath.basename e.1)
      (List.filter (child_of (resolve fs p)) (entries fs)).

Definition unlink (fs : filesystem) (p : string) : filesystem :=
  {| cwd := cwd fs;
     entries := List.filter (λ e, negb (String.eqb e.1 (resolve fs p))) (entries fs) |}.

(** [os.remove] *)
Definition remove (fs : filesystem) (p : string) : exn + filesystem :=
  match stat fs p with
  | None => inl FileNotFoundError
  | Some Dir => inl IsADirectoryError
  | Some (File _) => inr (unlink fs p)
  end.

(** [os.rmdir] *)
Definition rmdir (fs : filesystem) (p : string) : exn + filesystem :=
  match stat fs p with
  | None => inl FileNotFoundError
  | Some (File _) => inl NotADirectoryError
  | Some Dir =>
      match listdir fs p with
      | [] => inr (unlink fs p)
      | _ :: _ => inl DirectoryNotEmpty
      end
  end.

(** One directory of [os.walk]: its sub-directories and its other entries,
    by name, in listing order. *)
Definition scan (fs : filesystem) (top : string) : list string * list string :=
  let names := listdir fs top in
  (List.filter (λ n, path_isdir fs (OsPath.join top n)) names,
   List.filter (λ n, negb (path_isdir fs (OsPath.join top n))) names).

(** [os.walk(top)], top-down: a path that is not a directory yields
    nothing.  [depth] bounds the nesting. *)
Fixpoint walk_depth (depth : nat) (fs : filesystem) (top : string)
  : list (string * list string * list string) :=
  match depth with
  | 0 => []
  | S depth' =>
      if path_isdir fs top then
        let '(dirs, nondirs) := scan fs top in
        (top, dirs, nondirs)
          :: concat (map (λ d, walk_depth depth' fs (OsPath.join top d)) dirs)
      else []
  end.

Definition walk (fs : filesystem) (top : string)
  : list (string * list string * list string) :=
  walk_depth (S (length (entries fs))) fs top.

End Os.

(** ** Commands: state, output and exceptions *)

(** The call site of a successful removal: [os.remove(asset)],
    [os.remove(rst_file)], [os.rmdir(dir_path)], [os.rmdir(original_path)]. *)
Inductive site := AssetSite | PageSite | DirSite | RootSite.

Inductive message :=
| WouldDeleteAsset (directive asset : string)
| WouldDeletePage (rst_file : string)
| WouldDeleteDir (dir_path : string)
| NoRstFiles (path : string)
| Summary (deleted_assets : list (string * string))
          (deleted_pages deleted_dirs : list string).

Inductive event :=
| Removed (s : site) (p : string)
| Printed (m : message).

Record world := {
  w_fs : filesystem;
  w_log : list event
}.

(** How a command ends: with a value, with an uncaught exception, or not at
    all within the given number of loop iterations. *)
Inductive outcome (A : Type) :=
| Done (a : A)
| Raised (e : exn)
| Timeout.
Arguments Done {A} a.
Arguments Raised {A} e.
Arguments Timeout {A}.

Definition M (A : Type) : Type := world → world * outcome A.

#[global] Instance M_ret : MRet M := λ A a w, (w, Done a).

#[global] Instance M_bind : MBind M := λ A B k m w,
  match m w with
  | (w', Done a) => k a w'
  | (w', Raised e) => (w', Raised e)
  | (w', Timeout) => (w', Timeout)
  end.

Definition read_fs {A} (f : filesystem → A) : M A := λ w, (w, Done (f (w_fs w))).

Definition emit (e : event) : M unit :=
  λ w, ({| w_fs := w_fs w; w_log := w_log w ++ [e] |}, Done tt).

Definition print (m : message) : M unit := emit (Printed m).

Definition diverge {A} : M A := λ w, (w, Timeout).

(** A file-system call that changes the disk, made at call site [s]. *)
Definition syscall (op : filesystem → string → exn + filesystem)
    (s : site) (p : string) : M unit :=
  λ w, match op (w_fs w) p with
       | inl e => (w, Raised e)
       | inr fs' => ({| w_fs := fs'; w_log := w_log w ++ [Removed s p] |}, Done tt)
       end.

(** [for x in xs: body], threading the loop's local variables. *)
Fixpoint for_each {A S} (xs : list A) (body : A → S → M S) (s : S) : M S :=
  match xs with
  | [] => mret s
  | x :: xs' => s' ← body x s; for_each xs' body s'
  end.

(** ** rm.py *)

(** The directive names of [DIRECTIVE_PATTERNS], in the dictionary's order. *)
Definition DIRECTIVE_PATTERNS : list string := ["image"; "figure"; "include"].

(** [pattern.findall(content)] for the pattern of [directive]: the captured
    groups of its occurrences, in text order. *)
Definition findall (directive : string) (content : list (string * string))
  : list string :=
  map snd (List.filter (λ m, String.eqb m.1 directive) content).

Definition find_rst_files (fs : filesystem) (path : string) : list string :=
  if Os.path_isfile fs path && Str.endswith path ".rst" then [path]
  else
    concat (map (λ '(root, _, files),
                   map (OsPath.join root)
                       (List.filter (λ file, Str.endswith file ".rst") files))
                (Os.walk fs path)).

(** The result is the dictionary asset path -> directive name.  Every file of
    the model can be read, so the [except] branch is never taken. *)
Definition extract_assets (fs : filesystem) (file_path : string)
  : list (string * string) :=
  if negb (Os.path_exists fs file_path) || negb (Os.path_isfile fs file_path)
  then []
  else
    match Os.stat fs file_path with
    | Some (File content) =>
        foldl (λ asset_directives directive,
                 foldl (λ asset_directives m,
                          let asset_path := Str.strip m in
                          let asset_full_path :=
                            OsPath.normpath
                              (OsPath.join (OsPath.dirname file_path) asset_path) in
                          Dict.set asset_directives asset_full_path directive)
                       asset_directives (findall directive content))
              [] DIRECTIVE_PATTERNS
    | _ => []
    end.

(** The dictionaries [build_asset_index] fills while it runs. *)
Record tables := {
  t_asset_directive_map : gmap string string;
  t_include_graph : gmap string (list string);
  t_file_to_assets : list (string * gset string);
  t_processed : gset string
}.

Record index := {
  asset_to_files : gmap string (gset string);
  file_to_assets : list (string * gset string);
  asset_directive_map : gmap string string
}.

(** First pass, the body of [for asset, directive in asset_directives.items()]. *)
Definition record_asset (fs : filesystem) (rst : string)
    (acc : gmap string string * gmap string (list string) * gset string)
    (item : string * string)
  : gmap string string * gmap string (list string) * gset string :=
  let '(adm, graph, direct_assets) := acc in
  let '(asset, directive) := item in
  let adm := <[asset := directive]> adm in
  let direct_assets := direct_assets ∪ {[asset]} in
  if String.eqb directive "include" && Os.path_exists fs asset
  then (adm, <[rst := default [] (graph !! rst) ++ [asset]]> graph, direct_assets)
  else (adm, graph, direct_assets).

(** First pass, the body of [for rst in rst_files].  Nothing in it raises in
    the model, so the [except] branch is left out. *)
Definition first_pass_step (fs : filesystem) (t : tables) (rst : string) : tables :=
  let asset_directives := extract_assets fs rst in
  let '(adm, graph, direct_assets) :=
    foldl (record_asset fs rst)
          (t_asset_directive_map t, t_include_graph t, ∅) asset_directives in
  {| t_asset_directive_map := adm;
     t_include_graph := graph;
     t_file_to_assets := Dict.set (t_file_to_assets t) rst direct_assets;
     t_processed := t_processed t |}.

Definition lookup_assets (t : tables) (file_path : string) : gset string :=
  default ∅ (Dict.get (t_file_to_assets t) file_path).

Definition mark_processed (t : tables) (file_path : string) : tables :=
  {| t_asset_directive_map := t_asset_directive_map t;
     t_include_graph := t_include_graph t;
     t_file_to_assets := t_file_to_assets t;
     t_processed := t_processed t ∪ {[file_path]} |}.

Definition store_assets (t : tables) (file_path : string) (assets : gset string)
  : tables :=
  {| t_asset_directive_map := t_asset_directive_map t;
     t_include_graph := t_include_graph t;
     t_file_to_assets := Dict.set (t_file_to_assets t) file_path assets;
     t_processed := t_processed t |}.

(** The loop [for included_file in include_graph.get(file_path, [])] of
    [process_includes]; [recurse] is the recursive call. *)
Fixpoint include_loop (recurse : string → tables → option (gset string * tables))
    (included : list string) (all_assets : gset string) (t : tables)
  : option (gset string * tables) :=
  match included with
  | [] => Some (all_assets, t)
  | included_file :: rest =>
      if decide (included_file ∈ t_processed t) then
        include_loop recurse rest all_assets t
      else
        match recurse included_file t with
        | None => None
        | Some (included_assets, t) =>
            include_loop recurse rest (all_assets ∪ included_assets) t
        end
  end.

(** The closure [process_includes]; [fuel] bounds the depth of the recursion,
    [None] when it is used up. *)
Fixpoint process_includes (fuel : nat) (file_path : string) (t : tables)
  : option (gset string * tables) :=
  match fuel with
  | 0 => None
  | S fuel' =>
      if decide (file_path ∈ t_processed t) then
        Some (lookup_assets t file_path, t)
      else
        let t := mark_processed t file_path in
        let all_assets := lookup_assets t file_path in
        match include_loop (process_includes fuel')
                (default [] (t_include_graph t !! file_path)) all_assets t with
        | None => None
        | Some (all_assets, t) => Some (all_assets, store_assets t file_path all_assets)
        end
  end.

(** Second pass: [for rst in rst_files: process_includes(rst)]. *)
Fixpoint second_pass (fuel : nat) (rst_files : list string) (t : tables)
  : option tables :=
  match rst_files with
  | [] => Some t
  | rst :: rest =>
      match process_includes fuel rst t with
      | None => None
      | Some (_, t) => second_pass fuel rest t
      end
  end.

(** Third pass: the reverse index. *)
(** [asset_to_files[asset].add(rst_file)] *)
Definition add_referrer (rst_file : string)
    (asset_to_files : gmap string (gset string)) (asset : string)
  : gmap string (gset string) :=
  <[asset := default ∅ (asset_to_files !! asset) ∪ {[rst_file]}]> asset_to_files.

Definition third_pass (file_to_assets : list (string * gset string))
  : gmap string (gset string) :=
  foldl (λ asset_to_files item,
           foldl (add_referrer item.1) asset_to_files (elements item.2))
        ∅ file_to_assets.

Definition empty_tables : tables :=
  {| t_asset_directive_map := ∅; t_include_graph := ∅;
     t_file_to_assets := []; t_processed := ∅ |}.

Definition build_asset_index (fuel : nat) (fs : filesystem) (rst_files : list string)
  : option index :=
  let t := foldl (first_pass_step fs) empty_tables rst_files in
  match second_pass fuel rst_files t with
  | None => None
  | Some t =>
      Some {| asset_to_files := third_pass (t_file_to_assets t);
              file_to_assets := t_file_to_assets t;
              asset_directive_map := t_asset_directive_map t |}
  end.

(** [asset_to_files[asset]], a [defaultdict(set)]. *)
Definition referring (asset_to_files : gmap string (gset string)) (asset : string)
  : gset string :=
  default ∅ (asset_to_files !! asset).

(** [len(asset_to_files[asset])] *)
Definition referrers (asset_to_files : gmap string (gset string)) (asset : string)
  : nat :=
  size (referring asset_to_files asset).

(** The loop that sets [all_unique], with its [break]. *)
Fixpoint all_unique (asset_to_files : gmap string (gset string))
    (assets : list string) : bool :=
  match assets with
  | [] => true
  | asset :: rest =>
      if 1 <? referrers asset_to_files asset then false
      else all_unique asset_to_files rest
  end.

(** The local variables of [delete_unused_assets_and_pages]. *)
Record deleted := {
  deleted_pages : list string;
  deleted_assets : list string;
  affected_dirs : gset string
}.

Definition remove_asset (asset_directive_map : gmap string string) (dry_run : bool)
    (asset : string) (d : deleted) : M deleted :=
  let directive := default "asset" (asset_directive_map !! asset) in
  present ← read_fs (λ fs, Os.path_exists fs asset);
  if present : bool then
    if dry_run then
      print (WouldDeleteAsset directive asset);; mret d
    else
      let affected := affected_dirs d ∪ {[OsPath.dirname asset]} in
      syscall Os.remove AssetSite asset;;
      mret {| deleted_pages := deleted_pages d;
              deleted_assets := deleted_assets d ++ [asset];
              affected_dirs := affected |}
  else mret d.

Definition remove_page (dry_run : bool) (rst_file : string) (d : deleted) : M deleted :=
  present ← read_fs (λ fs, Os.path_exists fs rst_file);
  if present : bool then
    if dry_run then
      print (WouldDeletePage rst_file);; mret d
    else
      let affected := affected_dirs d ∪ {[OsPath.dirname rst_file]} in
      syscall Os.remove PageSite rst_file;;
      mret {| deleted_pages := deleted_pages d ++ [rst_file];
              deleted_assets := deleted_assets d;
              affected_dirs := affected |}
  else mret d.

(** The body of [for rst_file, assets in file_to_assets.items()]. *)
Definition delete_step (asset_to_files : gmap string (gset string))
    (asset_directive_map : gmap string string) (dry_run : bool)
    (item : string * gset string) (d : deleted) : M deleted :=
  let '(rst_file, assets) := item in
  if decide (assets = ∅) then mret d
  else if all_unique asset_to_files (elements assets) then
    d ← for_each (elements assets) (remove_asset asset_directive_map dry_run) d;
    remove_page dry_run rst_file d
  else mret d.

Definition delete_unused_assets_and_pages
    (asset_to_files : gmap string (gset string))
    (file_to_assets : list (string * gset string))
    (asset_directive_map : gmap string string) (dry_run : bool) : M deleted :=
  for_each file_to_assets (delete_step asset_to_files asset_directive_map dry_run)
    {| deleted_pages := []; deleted_assets := []; affected_dirs := ∅ |}.

(** Depth of a directory as the sort key sees it: [d.count(os.sep)]. *)
Definition depth (d : string) : nat := Str.count_sep d.

(** The [while] loop of [remove_empty_dirs]; [fuel] bounds its iterations. *)
Fixpoint climb (fuel : nat) (original_path parent : string) (all_dirs : gset string)
  : M (gset string) :=
  match fuel with
  | 0 => diverge
  | S fuel' =>
      present ← read_fs (λ fs, Os.path_exists fs parent);
      if Str.truthy parent && present && negb (String.eqb parent original_path)
      then climb fuel' original_path (OsPath.dirname parent) (all_dirs ∪ {[parent]})
      else mret all_dirs
  end.

(** [sorted(all_dirs, key=lambda d: d.count(os.sep), reverse=True)] *)
Definition deeper_first (d1 d2 : string) : Prop := depth d2 ≤ depth d1.

#[global] Instance deeper_first_dec d1 d2 : Decision (deeper_first d1 d2) :=
  decide (depth d2 ≤ depth d1).

Definition sorted_dirs (all_dirs : gset string) : list string :=
  merge_sort deeper_first (elements all_dirs).

(** The body of [for dir_path in sorted_dirs]. *)
Definition prune_step (dry_run : bool) (dir_path : string) (deleted_dirs : list string)
  : M (list string) :=
  present ← read_fs (λ fs, Os.path_exists fs dir_path && Os.path_isdir fs dir_path);
  if negb present then mret deleted_dirs
  else
    names ← read_fs (λ fs, Os.listdir fs dir_path);
    match names with
    | [] =>
        if dry_run then print (WouldDeleteDir dir_path);; mret deleted_dirs
        else syscall Os.rmdir DirSite dir_path;; mret (deleted_dirs ++ [dir_path])
    | _ :: _ => mret deleted_dirs
    end.

(** The final check of [original_path]. *)
Definition prune_root (dry_run : bool) (original_path : string)
    (deleted_dirs : list string) : M (list string) :=
  is_dir ← read_fs (λ fs, Os.path_isdir fs original_path);
  if is_dir : bool then
    names ← read_fs (λ fs, Os.listdir fs original_path);
    match names with
    | [] =>
        if dry_run then print (WouldDeleteDir original_path);; mret deleted_dirs
        else syscall Os.rmdir RootSite original_path;;
             mret (deleted_dirs ++ [original_path])
    | _ :: _ => mret deleted_dirs
    end
  else mret deleted_dirs.

(** The first loop: the affected directories and the parents the climb adds. *)
Definition expand_dirs (fuel : nat) (dirs : gset string) (original_path : string)
  : M (gset string) :=
  for_each (elements dirs)
    (λ dir_path all_dirs, climb fuel original_path (OsPath.dirname dir_path) all_dirs)
    dirs.

Definition remove_empty_dirs (fuel : nat) (dirs : gset string)
    (original_path : string) (dry_run : bool) : M (list string) :=
  all_dirs ← expand_dirs fuel dirs original_path;
  deleted_dirs ← for_each (sorted_dirs all_dirs) (prune_step dry_run) [];
  prune_root dry_run original_path deleted_dirs.

Record args := {
  path : string;
  dry_run : bool
}.

Definition execute (fuel : nat) (a : args) : M unit :=
  original_path ← read_fs (λ fs, OsPath.abspath (cwd fs) (path a));
  rst_files ← read_fs (λ fs, find_rst_files fs (path a));
  match rst_files with
  | [] => print (NoRstFiles (path a))
  | _ :: _ =>
      built ← read_fs (λ fs, build_asset_index fuel fs rst_files);
      match built with
      | None => diverge
      | Some idx =>
          d ← delete_unused_assets_and_pages (asset_to_files idx)
                (file_to_assets idx) (asset_directive_map idx) (dry_run a);
          deleted_dirs ←
            (if decide (affected_dirs d = ∅) then mret []
             else remove_empty_dirs fuel (affected_dirs d) original_path (dry_run a));
          if dry_run a then mret tt
          else
            print (Summary
                     (map (λ x, (default "asset" (asset_directive_map idx !! x), x))
                          (deleted_assets d))
                     (deleted_pages d) deleted_dirs)
      end
  end.

(** A run from a given disk, with nothing printed yet. *)
Definition run {A} (m : M A) (fs : filesystem) : world * outcome A :=
  m {| w_fs := fs; w_log := [] |}.

(** * Notions used in the statements and their proofs *)

(** Case analysis on every string comparison in sight. *)
Ltac eqb_cases :=
  repeat match goal with
         | |- context [String.eqb ?a ?b] =>
             let E := fresh "E" in
             destruct (String.eqb a b) eqn:E;
             [apply String.eqb_eq in E|apply String.eqb_neq in E]
         | H : context [String.eqb ?a ?b] |- _ =>
             let E := fresh "E" in
             destruct (String.eqb a b) eqn:E;
             [apply String.eqb_eq in E|apply String.eqb_neq in E]
         end;
  simpl in *; try congruence.

(** The disk that a log of removals leaves. *)
Definition apply_event (fs : filesystem) (e : event) : filesystem :=
  match e with
  | Removed _ p => Os.unlink fs p
  | Printed _ => fs
  end.

Definition replay (fs : filesystem) (log : list event) : filesystem :=
  foldl apply_event fs log.

Definition removes (fs : filesystem) (q : string) (e : event) : bool :=
  match e with
  | Removed _ p => String.eqb (Os.resolve fs q) (Os.resolve fs p)
  | Printed _ => false
  end.

(** [ends r Q X]: the run [r] ended with a value and a world that satisfy [Q],
    or it was cut short (by the exception [Some e], or by the bound on the
    iterations, [None]) in a world that satisfies [X]. *)
Definition ends {A} (r : world * outcome A)
    (Q : A → world → Prop) (X : option exn → world → Prop) : Prop :=
  match r with
  | (w, Done a) => Q a w
  | (w, Raised e) => X (Some e) w
  | (w, Timeout) => X None w
  end.

Definition snoc_event (w : world) (e : event) : world :=
  {| w_fs := apply_event (w_fs w) e; w_log := w_log w ++ [e] |}.

Definition pages_of (log : list event) : list string :=
  omap (λ e, match e with Removed PageSite p => Some p | _ => None end) log.

Definition assets_of (log : list event) : list string :=
  omap (λ e, match e with Removed AssetSite p => Some p | _ => None end) log.

Definition dirs_of (log : list event) : gset string :=
  list_to_set
    (omap (λ e, match e with
                | Removed AssetSite p | Removed PageSite p => Some (OsPath.dirname p)
                | _ => None
                end) log).

(** The files a dry run says it would delete. *)
Definition reported (log : list event) (p : string) : Prop :=
  Printed (WouldDeletePage p) ∈ log ∨ ∃ d, Printed (WouldDeleteAsset d p) ∈ log.

(** [w'] continues [w]: more is logged, nothing comes back on disk. *)
Definition extends (w w' : world) : Prop :=
  (∃ l, w_log w' = w_log w ++ l) ∧
  (∀ p, Os.path_exists (w_fs w) p = false → Os.path_exists (w_fs w') p = false).

(** The classification of the engine: a non-empty asset set, every asset of
    which has at most one referring document. *)
Definition qualifies (a2f : gmap string (gset string)) (item : string * gset string)
  : Prop :=
  item.2 ≠ ∅ ∧ ∀ a, a ∈ item.2 → referrers a2f a ≤ 1.

Definition asset_candidate (a2f : gmap string (gset string))
    (f2a : list (string * gset string)) (p : string) : Prop :=
  ∃ item, item ∈ f2a ∧ qualifies a2f item ∧ p ∈ item.2.

Definition page_candidate (a2f : gmap string (gset string))
    (f2a : list (string * gset string)) (p : string) : Prop :=
  ∃ assets, (p, assets) ∈ f2a ∧ qualifies a2f (p, assets).

(** What the engine may log. *)
Definition good_event (a2f : gmap string (gset string))
    (f2a : list (string * gset string)) (adm : gmap string string) (dry : bool)
    (fs0 : filesystem) (e : event) : Prop :=
  match e with
  | Removed AssetSite p => dry = false ∧ asset_candidate a2f f2a p
  | Removed PageSite p => dry = false ∧ page_candidate a2f f2a p
  | Removed _ _ => False
  | Printed (WouldDeleteAsset d p) =>
      dry = true ∧ d = default "asset" (adm !! p) ∧ asset_candidate a2f f2a p
      ∧ Os.path_exists fs0 p = true
  | Printed (WouldDeletePage p) =>
      dry = true ∧ page_candidate a2f f2a p ∧ Os.path_exists fs0 p = true
  | Printed _ => False
  end.

(** The invariant of the engine's loops. *)
Record inv (a2f : gmap string (gset string)) (f2a : list (string * gset string))
    (adm : gmap string string) (dry : bool) (fs0 : filesystem) (w : world) : Prop := {
  inv_tracked : w_fs w = replay fs0 (w_log w);
  inv_dry : dry = true → w_fs w = fs0;
  inv_events : Forall (good_event a2f f2a adm dry fs0) (w_log w);
  inv_present : ∀ s p, Removed s p ∈ w_log w → Os.path_exists fs0 p = true;
  inv_pages : ∀ i p, w_log w !! i = Some (Removed PageSite p) →
    ∃ assets, (p, assets) ∈ f2a ∧ qualifies a2f (p, assets) ∧
      ∀ a, a ∈ assets → Os.path_exists (replay fs0 (take i (w_log w))) a = false
}.

Arguments inv_tracked {a2f f2a adm dry fs0} w _.
Arguments inv_dry {a2f f2a adm dry fs0} w _ _.
Arguments inv_events {a2f f2a adm dry fs0} w _.
Arguments inv_present {a2f f2a adm dry fs0} w _ s p _.
Arguments inv_pages {a2f f2a adm dry fs0} w _ i p _.

Definition acc_ok (d : deleted) (w : world) : Prop :=
  deleted_pages d = pages_of (w_log w) ∧
  deleted_assets d = assets_of (w_log w) ∧
  affected_dirs d = dirs_of (w_log w).

(** A path the engine is done with: reported if it is there (dry run), or
    gone (real run). *)
Definition settled (dry : bool) (fs0 : filesystem) (w : world) (p : string) : Prop :=
  if dry then Os.path_exists fs0 p = true → reported (w_log w) p
  else Os.path_exists (w_fs w) p = false.

Definition item_settled (a2f : gmap string (gset string)) (dry : bool)
    (fs0 : filesystem) (w : world) (item : string * gset string) : Prop :=
  qualifies a2f item → ∀ p, p = item.1 ∨ p ∈ item.2 → settled dry fs0 w p.

(** What may cut a run of the engine short: [os.remove] raising on a
    directory. *)
Definition cut (a2f : gmap string (gset string)) (f2a : list (string * gset string))
    (adm : gmap string string) (dry : bool) (fs0 : filesystem)
    (e : option exn) (w : world) : Prop :=
  e = Some IsADirectoryError ∧ dry = false ∧ inv a2f f2a adm dry fs0 w.

(** How the second pass changes the tables. *)
Record grows (t t' : tables) : Prop := {
  grows_graph : t_include_graph t' = t_include_graph t;
  grows_adm : t_asset_directive_map t' = t_asset_directive_map t;
  grows_processed : t_processed t ⊆ t_processed t';
  grows_keys : ∀ q, is_Some (Dict.get (t_file_to_assets t) q) →
                    is_Some (Dict.get (t_file_to_assets t') q);
  grows_nodup : NoDup (Dict.keys (t_file_to_assets t)) →
                NoDup (Dict.keys (t_file_to_assets t'));
  grows_assets : ∀ q, lookup_assets t q ⊆ lookup_assets t' q;
  grows_frame : ∀ q, q ∈ t_processed t →
                     Dict.get (t_file_to_assets t') q = Dict.get (t_file_to_assets t) q
}.

(** Every document the second pass can reach lies in [U]. *)
Definition graph_within (U : gset string) (t : tables) : Prop :=
  ∀ q l x, t_include_graph t !! q = Some l → x ∈ l → x ∈ U.

(** The documents of a run: those given and those an include names. *)
Definition universe (rst_files : list string) (t : tables) : gset string :=
  list_to_set rst_files
  ∪ ⋃ (list_to_set <$> (map_to_list (t_include_graph t)).*2).

(** The recursion depth that is always enough for a given disk and list of
    documents. *)
Definition enough_fuel (fs : filesystem) (rst_files : list string) : nat :=
  S (size (universe rst_files (foldl (first_pass_step fs) empty_tables rst_files))).

(** The direct references of a document: the keys of [extract_assets]. *)
Definition direct_assets (fs : filesystem) (rst : string) : gset string :=
  list_to_set (Dict.keys (extract_assets fs rst)).

(** The path [extract_assets] records for the captured text [m] in
    [file_path]. *)
Definition asset_full_path (file_path m : string) : string :=
  OsPath.normpath (OsPath.join (OsPath.dirname file_path) (Str.strip m)).

(** What the pruner and the summary may log. *)
Definition tail_event (e : event) : Prop :=
  match e with
  | Removed DirSite _ | Removed RootSite _ => True
  | Printed (WouldDeleteDir _) | Printed (Summary _ _ _) => True
  | _ => False
  end.

(** [w'] is [w] with events of kind [P] logged after it. *)
Definition appends (P : event → Prop) (w w' : world) : Prop :=
  ∃ l, w_log w' = w_log w ++ l ∧ Forall P l.

(** What [execute] does once the engine has returned [d]. *)
Definition execute_tail (fuel : nat) (a : args) (original_path : string)
    (idx : index) (d : deleted) : M unit :=
  deleted_dirs ←
    (if decide (affected_dirs d = ∅) then mret []
     else remove_empty_dirs fuel (affected_dirs d) original_path (dry_run a));
  if dry_run a then mret tt
  else
    print (Summary
             (map (λ x, (default "asset" (asset_directive_map idx !! x), x))
                  (deleted_assets d))
             (deleted_pages d) deleted_dirs).

(** The files the engine is after: the qualifying documents and their
    assets. *)
Definition candidate (a2f : gmap string (gset string))
    (f2a : list (string * gset string)) (p : string) : Prop :=
  asset_candidate a2f f2a p ∨ page_candidate a2f f2a p.

(** The file at the absolute path [q] is reported by a dry run. *)
Definition file_reported (fs : filesystem) (log : list event) (q : string) : Prop :=
  ∃ p, reported log p ∧ Os.resolve fs p = q.

(** The file at the absolute path [q] is removed, as an asset or as a page. *)
Definition file_removed (fs : filesystem) (log : list event) (q : string) : Prop :=
  ∃ s p, Removed s p ∈ log ∧ (s = AssetSite ∨ s = PageSite) ∧ Os.resolve fs p = q.





(** ** Notions used in the further properties *)

(** The paths [extract_assets] records for the occurrences of [directive] in
    a document. *)
Definition targets (file_path directive : string) (content : list (string * string))
  : list string :=
  asset_full_path file_path <$> findall directive content.

(** An edge of the include graph as the first pass records it: [x] is a
    document of the run, [y] is recorded for it with the directive
    [include], and [y] is on disk. *)
Definition includes (fs : filesystem) (rst_files : list string) (x y : string) : Prop :=
  x ∈ rst_files
  ∧ Dict.get (extract_assets fs x) y = Some "include"
  ∧ Os.path_exists fs y = true.

(** [a] is a direct reference of a document of the run that [D] reaches
    through include edges. *)
Definition reaches (fs : filesystem) (rst_files : list string) (D a : string) : Prop :=
  ∃ D', rtc (includes fs rst_files) D D' ∧ D' ∈ rst_files ∧ a ∈ direct_assets fs D'.

Definition graph_ok (fs : filesystem) (rst_files : list string) (t : tables) : Prop :=
  ∀ x y, y ∈ default [] (t_include_graph t !! x) → includes fs rst_files x y.

Definition sound (fs : filesystem) (rst_files : list string) (t : tables) : Prop :=
  ∀ k a, a ∈ lookup_assets t k → reaches fs rst_files k a.

(** An edge of the dictionary [include_graph]. *)
Definition edge (graph : gmap string (list string)) (x y : string) : Prop :=
  y ∈ default [] (graph !! x).

(** What a call of [process_includes] that starts in [t] and ends in [t']
    with the set [r] has done: the documents it marked are closed under the
    edges of the graph, and their assets are in [r]. *)
Definition visited (t t' : tables) (r : gset string) : Prop :=
  (∀ x y, x ∈ t_processed t' → x ∉ t_processed t → edge (t_include_graph t) x y →
          y ∈ t_processed t')
  ∧ (∀ x, x ∈ t_processed t' → x ∉ t_processed t → lookup_assets t x ⊆ r).

(** The value [delete_unused_assets_and_pages] starts from. *)
Definition no_deletions : deleted :=
  {| deleted_pages := []; deleted_assets := []; affected_dirs := ∅ |}.

(** The files a log removes: the assets, then the pages. *)
Definition removed_files (log : list event) : list string :=
  assets_of log ++ pages_of log.

(** What the engine keeps true of the files it has removed so far. *)
Definition removals_ok (dry : bool) (fs0 : filesystem) (d : deleted) (w : world) : Prop :=
  acc_ok d w
  ∧ w_fs w = replay fs0 (w_log w)
  ∧ NoDup (removed_files (w_log w))
  ∧ (∀ p, p ∈ removed_files (w_log w) →
          Os.path_isfile fs0 p = true ∧ Os.path_exists (w_fs w) p = false)
  ∧ (dry = true → d = no_deletions).

(** The test of the pruner: a directory without entries. *)
Definition is_empty_dir (fs : filesystem) (p : string) : bool :=
  Os.path_isdir fs p && bool_decide (Os.listdir fs p = []).

(** [p] is [dirname d], or [dirname (dirname d)], and so on. *)
Definition above (d p : string) : Prop :=
  ∃ k, Nat.iter (S k) OsPath.dirname d = p.

(** The directories the pass of the pruner goes through: the affected ones,
    and the parents the climb adds. *)
Definition pass_candidate (fs : filesystem) (dirs : gset string)
    (original_path p : string) : Prop :=
  p ∈ dirs
  ∨ (p ≠ original_path ∧ Os.path_exists fs p = true ∧ ∃ d, d ∈ dirs ∧ above d p).

Definition would_delete_dir (p : string) : event := Printed (WouldDeleteDir p).

(** The directories a log removes, in order. *)
Definition removed_dirs (log : list event) : list string :=
  omap (λ e, match e with
             | Removed DirSite p | Removed RootSite p => Some p
             | _ => None
             end) log.

Definition is_removal (e : event) : Prop :=
  match e with
  | Removed _ _ => True
  | Printed _ => False
  end.

(** Where a removal of the pipeline comes from: a page is a document found,
    an asset is a direct reference of a document found, a directory of the
    pass lies above a file that [log] removes, and the directory of the
    final check is [original_path]. *)
Definition accounted (fs : filesystem) (rst_files : list string)
    (original_path : string) (log : list event) (s : site) (p : string) : Prop :=
  match s with
  | PageSite => p ∈ rst_files
  | AssetSite => ∃ D, D ∈ rst_files ∧ p ∈ direct_assets fs D
  | DirSite =>
      ∃ s' q, (s' = AssetSite ∨ s' = PageSite) ∧ Removed s' q ∈ log ∧ above q p
  | RootSite => p = original_path
  end.

(** ** Example trees *)

(** A page with one image of its own, in a sub-directory of the root
    [/w/docs]. *)
Definition page_tree : filesystem :=
  {| cwd := "/w";
     entries := [("/", Dir); ("/w", Dir); ("/w/docs", Dir); ("/w/docs/sub", Dir);
                 ("/w/docs/sub/page.rst", File [("image", "img.png")]);
                 ("/w/docs/sub/img.png", File [])] |}.

Definition page_index : index :=
  {| asset_to_files := {["docs/sub/img.png" := {["docs/sub/page.rst"]}]};
     file_to_assets := [("docs/sub/page.rst", {["docs/sub/img.png"]})];
     asset_directive_map := {["docs/sub/img.png" := "image"]} |}.

(** A page that includes a footer without directives of its own. *)
Definition footer_tree : filesystem :=
  {| cwd := "/w";
     entries := [("/", Dir); ("/w", Dir); ("/w/docs", Dir);
                 ("/w/docs/main.rst", File [("include", "footer.rst")]);
                 ("/w/docs/footer.rst", File [])] |}.

(** A page without directives. *)
Definition plain_tree : filesystem :=
  {| cwd := "/w";
     entries := [("/", Dir); ("/w", Dir); ("/w/docs", Dir);
                 ("/w/docs/plain.rst", File [])] |}.

(** [main.rst] includes [inc.rst], which shows [img.png]; the directory lists
    [inc.rst] first. *)
Definition include_tree : filesystem :=
  {| cwd := "/w";
     entries := [("/", Dir); ("/w", Dir); ("/w/docs", Dir);
                 ("/w/docs/inc.rst", File [("image", "img.png")]);
                 ("/w/docs/main.rst", File [("include", "inc.rst")]);
                 ("/w/docs/img.png", File [])] |}.

(** [a.rst] and [b.rst] include each other; each shows an image of its own. *)
Definition cycle_tree : filesystem :=
  {| cwd := "/w";
     entries := [("/", Dir); ("/w", Dir); ("/w/docs", Dir);
                 ("/w/docs/a.rst", File [("include", "b.rst"); ("image", "a.png")]);
                 ("/w/docs/b.rst", File [("include", "a.rst"); ("image", "b.png")]);
                 ("/w/docs/a.png", File []);
                 ("/w/docs/b.png", File [])] |}.

(** [q.rst] includes [d.rst]; [d.rst] and [e.rst] show the same image.  The
    directory lists [d.rst] first. *)
Definition shared_tree : filesystem :=
  {| cwd := "/w";
     entries := [("/", Dir); ("/w", Dir); ("/w/docs", Dir);
                 ("/w/docs/d.rst", File [("image", "x.png")]);
                 ("/w/docs/q.rst", File [("include", "d.rst")]);
                 ("/w/docs/e.rst", File [("image", "x.png")]);
                 ("/w/docs/x.png", File [])] |}.

(** A page and its image in [a/docs], below the working directory [/w]. *)
Definition nested_tree : filesystem :=
  {| cwd := "/w";
     entries := [("/", Dir); ("/w", Dir); ("/w/a", Dir); ("/w/a/docs", Dir);
                 ("/w/a/docs/page.rst", File [("image", "img.png")]);
                 ("/w/a/docs/img.png", File [])] |}.

(** An empty root directory [/w/docs]. *)
Definition empty_root_tree : filesystem :=
  {| cwd := "/w"; entries := [("/", Dir); ("/w", Dir); ("/w/docs", Dir)] |}.

(** A page and its image directly in the root [/w/docs]. *)
Definition flat_tree : filesystem :=
  {| cwd := "/w";
     entries := [("/", Dir); ("/w", Dir); ("/w/docs", Dir);
                 ("/w/docs/page.rst", File [("image", "img.png")]);
                 ("/w/docs/img.png", File [])] |}.

(** The tree of [page_tree] once the page and its image are gone. *)
Definition emptied_tree : filesystem :=
  {| cwd := "/w";
     entries := [("/", Dir); ("/w", Dir); ("/w/docs", Dir); ("/w/docs/sub", Dir)] |}.

(** The index of [main.rst] and [inc.rst] of [include_tree], in this order. *)
Definition include_index : index :=
  {| asset_to_files := {["docs/inc.rst" := {["docs/main.rst"]};
                         "docs/img.png" := {["docs/main.rst"; "docs/inc.rst"]}]};
     file_to_assets := [("docs/main.rst", {["docs/inc.rst"; "docs/img.png"]});
                        ("docs/inc.rst", {["docs/img.png"]})];
     asset_directive_map := {["docs/inc.rst" := "include"; "docs/img.png" := "image"]} |}.

(** * Verification *)

(** ** The file system under removals *)

Section dict_facts.
Context {V : Type}.
Implicit Types (d : list (string * V)) (k q : string).

Lemma get_filter_other d k q :
  Dict.get (List.filter (λ e, negb (String.eqb e.1 k)) d) q
  = if String.eqb q k then None else Dict.get d q.
Proof.
  induction d as [|[k' v] d IH]; simpl.
  - by destruct (String.eqb q k).
  - destruct (String.eqb k' k) eqn:E1; simpl; rewrite ?IH; eqb_cases.
Qed.

Lemma get_set_same d k v : Dict.get (Dict.set d k v) k = Some v.
Proof.
  induction d as [|[k' v'] d IH]; simpl.
  - by rewrite String.eqb_refl.
  - destruct (String.eqb k' k) eqn:E1; simpl; rewrite ?E1, ?String.eqb_refl; done.
Qed.

Lemma get_set_other d k k' v : k ≠ k' → Dict.get (Dict.set d k v) k' = Dict.get d k'.
Proof.
  intros Hne. induction d as [|[k0 v0] d IH]; simpl.
  - eqb_cases.
  - destruct (String.eqb k0 k) eqn:E1; simpl; rewrite ?IH; eqb_cases.
Qed.

Lemma get_Some_elem d k v : Dict.get d k = Some v → (k, v) ∈ d.
Proof.
  induction d as [|[k' v'] d IH]; simpl; [done|].
  destruct (String.eqb k' k) eqn:E1.
  - apply String.eqb_eq in E1 as ->. intros [= ->]. left.
  - intros H. right. by apply IH.
Qed.

Lemma keys_set d k v :
  Dict.keys (Dict.set d k v) = Dict.keys d ∨
  Dict.keys (Dict.set d k v) = Dict.keys d ++ [k] ∧ k ∉ Dict.keys d.
Proof.
  unfold Dict.keys. induction d as [|[k' v'] d IH]; cbn [Dict.set].
  - right. split; [done|]. apply not_elem_of_nil.
  - destruct (String.eqb k' k) eqn:E1; rewrite !fmap_cons; cbn [fst].
    + apply String.eqb_eq in E1 as ->. by left.
    + apply String.eqb_neq in E1.
      destruct IH as [->|[-> Hnotin]]; [by left|right].
      split; [done|]. rewrite not_elem_of_cons. split; [congruence|done].
Qed.

Lemma NoDup_keys_set d k v : NoDup (Dict.keys d) → NoDup (Dict.keys (Dict.set d k v)).
Proof.
  intros Hd. destruct (keys_set d k v) as [->|[-> Hnotin]]; [done|].
  apply NoDup_app. split_and!; [done| |apply NoDup_singleton].
  intros x Hx ->%list_elem_of_singleton. done.
Qed.

Lemma elem_get_NoDup d k v : NoDup (Dict.keys d) → (k, v) ∈ d → Dict.get d k = Some v.
Proof.
  unfold Dict.keys. induction d as [|[k' v'] d IH].
  - by intros _ ?%elem_of_nil.
  - rewrite fmap_cons, NoDup_cons. cbn [fst Dict.get].
    intros [Hnotin Hd] [[= -> ->]|Hin]%elem_of_cons.
    + by rewrite String.eqb_refl.
    + destruct (String.eqb k' k) eqn:E1; [|by apply IH].
      apply String.eqb_eq in E1 as ->.
      exfalso. apply Hnotin. apply list_elem_of_fmap. by exists (k, v).
Qed.
End dict_facts.

Lemma resolve_unlink fs p q : Os.resolve (Os.unlink fs p) q = Os.resolve fs q.
Proof. done. Qed.

Lemma stat_unlink fs p q :
  Os.stat (Os.unlink fs p) q
  = if String.eqb (Os.resolve fs q) (Os.resolve fs p) then None else Os.stat fs q.
Proof.
  unfold Os.stat. rewrite resolve_unlink. simpl. rewrite get_filter_other.
  destruct (Str.truthy q); [done|]. by destruct (String.eqb _ _).
Qed.

Lemma path_exists_unlink fs p q :
  Os.path_exists (Os.unlink fs p) q
  = Os.path_exists fs q && negb (String.eqb (Os.resolve fs q) (Os.resolve fs p)).
Proof.
  unfold Os.path_exists. rewrite stat_unlink.
  destruct (String.eqb _ _); simpl; [|by rewrite andb_true_r].
  by rewrite andb_false_r.
Qed.

Lemma remove_inr fs p fs' : Os.remove fs p = inr fs' → fs' = Os.unlink fs p.
Proof. unfold Os.remove. by repeat case_match; intros [= <-]. Qed.

Lemma rmdir_inr fs p fs' : Os.rmdir fs p = inr fs' → fs' = Os.unlink fs p.
Proof. unfold Os.rmdir. by repeat case_match; intros [= <-]. Qed.

Lemma remove_inl fs p e :
  Os.remove fs p = inl e → Os.path_exists fs p = true → e = IsADirectoryError.
Proof.
  unfold Os.remove, Os.path_exists. by repeat case_match; intros [= <-].
Qed.

Lemma cwd_replay fs log : cwd (replay fs log) = cwd fs.
Proof.
  revert fs. induction log as [|e log IH]; intros fs; [done|].
  simpl. rewrite IH. by destruct e.
Qed.

Lemma resolve_replay fs log q : Os.resolve (replay fs log) q = Os.resolve fs q.
Proof. unfold Os.resolve. by rewrite cwd_replay. Qed.

Lemma replay_snoc fs log e : replay fs (log ++ [e]) = apply_event (replay fs log) e.
Proof. unfold replay. by rewrite foldl_app. Qed.

Lemma path_exists_replay fs log q :
  Os.path_exists (replay fs log) q
  = Os.path_exists fs q && negb (existsb (removes fs q) log).
Proof.
  induction log as [|e log IH] using rev_ind.
  - simpl. by rewrite andb_true_r.
  - rewrite replay_snoc, existsb_app. simpl. rewrite orb_false_r.
    destruct e as [s p|m]; simpl.
    + rewrite path_exists_unlink, IH, !resolve_replay.
      rewrite negb_orb. by rewrite andb_assoc.
    + by rewrite IH, orb_false_r.
Qed.

Lemma path_exists_replay_false fs log q :
  Os.path_exists fs q = false → Os.path_exists (replay fs log) q = false.
Proof. intros H. by rewrite path_exists_replay, H. Qed.

(** ** Reasoning about commands *)

Section ends_rules.
Context {A B : Type}.
Implicit Types (Q : A → world → Prop) (X : option exn → world → Prop).

Lemma ends_ret Q X (a : A) w : Q a w → ends ((mret a : M A) w) Q X.
Proof. done. Qed.

Lemma ends_bind (m : M A) (k : A → M B) (Q' : B → world → Prop) X w :
  ends (m w) (λ a w', ends (k a w') Q' X) X → ends ((m ≫= k) w) Q' X.
Proof.
  unfold mbind, M_bind, ends. by destruct (m w) as [w' [a|e|]].
Qed.

Lemma ends_read (f : filesystem → A) Q X w : Q (f (w_fs w)) w → ends (read_fs f w) Q X.
Proof. done. Qed.

Lemma ends_diverge Q X w : X None w → ends (@diverge A w) Q X.
Proof. done. Qed.

Lemma ends_mono (r : world * outcome A) Q Q' X X' :
  ends r Q X → (∀ a w, Q a w → Q' a w) → (∀ e w, X e w → X' e w) → ends r Q' X'.
Proof. destruct r as [w [a|e|]]; simpl; eauto. Qed.
End ends_rules.

Lemma ends_print (m : message) (Q : unit → world → Prop) X w :
  Q tt (snoc_event w (Printed m)) → ends (print m w) Q X.
Proof. done. Qed.

Lemma ends_remove (s : site) p (Q : unit → world → Prop) X w :
  (Os.path_isfile (w_fs w) p = true → Q tt (snoc_event w (Removed s p))) →
  (∀ e, Os.remove (w_fs w) p = inl e → X (Some e) w) →
  ends (syscall Os.remove s p w) Q X.
Proof.
  intros HQ HX. unfold syscall.
  destruct (Os.remove (w_fs w) p) as [e|fs'] eqn:Hop; simpl; [by apply HX|].
  rewrite (remove_inr _ _ _ Hop). apply HQ.
  unfold Os.remove, Os.path_isfile in *. by repeat case_match.
Qed.

Lemma ends_rmdir (s : site) p (Q : unit → world → Prop) X w :
  Os.path_isdir (w_fs w) p = true → Os.listdir (w_fs w) p = [] →
  Q tt (snoc_event w (Removed s p)) →
  ends (syscall Os.rmdir s p w) Q X.
Proof.
  intros Hd Hl HQ. unfold syscall, Os.rmdir, Os.path_isdir in *.
  rewrite Hl. by repeat case_match.
Qed.

(** The loop rule: [I done s w] holds after the iterations over [done]. *)
Lemma ends_for_each {A S} (I : list A → S → world → Prop) X
    (body : A → S → M S) (xs : list A) (s : S) (w : world) :
  I [] s w →
  (∀ done x rest s w, xs = done ++ x :: rest → I done s w →
     ends (body x s w) (I (done ++ [x])) X) →
  ends (for_each xs body s w) (I xs) X.
Proof.
  revert I s w. induction xs as [|x xs IH]; intros I s w HI Hbody; [done|].
  simpl. apply ends_bind.
  eapply ends_mono; [apply (Hbody [] x xs); done| |done].
  intros s' w' HI'. simpl in HI'.
  apply (IH (λ done, I (x :: done))); [done|].
  intros done y rest s'' w'' -> HI''.
  apply (Hbody (x :: done) y rest); by simplify_list_eq.
Qed.

(** ** The deletion engine *)

Lemma all_unique_spec a2f (l : list string) :
  all_unique a2f l = true ↔ ∀ a, a ∈ l → referrers a2f a ≤ 1.
Proof.
  induction l as [|x l IH]; simpl.
  - split; [|done]. by intros _ a ?%elem_of_nil.
  - destruct (1 <? referrers a2f x) eqn:E.
    + apply Nat.ltb_lt in E. split; [done|]. intros H.
      specialize (H x (list_elem_of_here _ _)). lia.
    + apply Nat.ltb_ge in E. rewrite IH. split.
      * intros H a [->|Ha]%elem_of_cons; [done|by apply H].
      * intros H a Ha. apply H. by right.
Qed.

Lemma extends_refl w : extends w w.
Proof. split; [exists []; by rewrite app_nil_r|done]. Qed.

Lemma extends_trans w1 w2 w3 : extends w1 w2 → extends w2 w3 → extends w1 w3.
Proof.
  intros [[l1 H1] G1] [[l2 H2] G2]. split; [|by eauto].
  exists (l1 ++ l2). by rewrite H2, H1, app_assoc.
Qed.

Lemma extends_snoc w e : extends w (snoc_event w e).
Proof.
  split; [by exists [e]|]. intros p Hp. destruct e as [s q|m]; simpl; [|done].
  by rewrite path_exists_unlink, Hp.
Qed.

Section engine.
Context (a2f : gmap string (gset string)) (f2a : list (string * gset string))
        (adm : gmap string string) (fs0 : filesystem).

Local Abbreviation qualifies := (qualifies a2f).
Local Abbreviation asset_candidate := (asset_candidate a2f f2a).
Local Abbreviation page_candidate := (page_candidate a2f f2a).
Local Abbreviation good_event dry := (good_event a2f f2a adm dry fs0).
Local Abbreviation inv dry := (inv a2f f2a adm dry fs0).
Local Abbreviation settled dry := (settled dry fs0).
Local Abbreviation item_settled dry := (item_settled a2f dry fs0).
Local Abbreviation cut dry := (cut a2f f2a adm dry fs0).

Lemma settled_extends dry w w' p : extends w w' → settled dry w p → settled dry w' p.
Proof.
  intros [[l Hl] Hgone]. unfold settled, reported. destruct dry; [|by auto].
  intros H Hp. rewrite Hl. setoid_rewrite elem_of_app.
  destruct (H Hp) as [?|[d ?]]; [by left; left|right; exists d; by left].
Qed.

Lemma inv_init dry : inv dry {| w_fs := fs0; w_log := [] |}.
Proof.
  split; simpl; [done|done|constructor| |]; [by intros s p ?%elem_of_nil|].
  by intros i p ?.
Qed.

Lemma inv_snoc dry w e :
  inv dry w → good_event dry e →
  (∀ p, e = Removed PageSite p →
     ∃ assets, (p, assets) ∈ f2a ∧ qualifies (p, assets) ∧
       ∀ a, a ∈ assets → Os.path_exists (w_fs w) a = false) →
  (∀ s p, e = Removed s p → Os.path_exists (w_fs w) p = true) →
  inv dry (snoc_event w e).
Proof.
  intros [Htr Hdry Hev Hpr Hpg] He Hpage Hthere. split; simpl.
  - by rewrite replay_snoc, <-Htr.
  - intros Hd. destruct e as [[] p|m]; simpl in *; try done;
      try (destruct He; congruence); by apply Hdry.
  - apply Forall_app. split; [done|]. by constructor.
  - intros s p [Hin|Heq%list_elem_of_singleton]%elem_of_app; [by eapply Hpr|].
    subst e. specialize (Hthere s p eq_refl).
    rewrite Htr, path_exists_replay in Hthere.
    by apply andb_true_iff in Hthere as [? _].
  - intros i p Hi. destruct (decide (i < length (w_log w))) as [Hlt|Hge].
    + rewrite lookup_app_l in Hi by done.
      rewrite take_app_le by lia. by apply Hpg.
    + rewrite lookup_app_r in Hi by lia.
      destruct (i - length (w_log w)) as [|n] eqn:Hn; simpl in Hi; [|by destruct n].
      injection Hi as ->. assert (i = length (w_log w)) as -> by lia.
      rewrite take_app_length. rewrite <-Htr. by apply Hpage.
Qed.

Lemma acc_ok_print d w m : acc_ok d w → acc_ok d (snoc_event w (Printed m)).
Proof.
  intros (H1 & H2 & H3). unfold acc_ok, pages_of, assets_of, dirs_of. simpl.
  rewrite !omap_app. simpl. rewrite !app_nil_r. done.
Qed.

Lemma acc_ok_remove_asset d w p :
  acc_ok d w →
  acc_ok {| deleted_pages := deleted_pages d;
            deleted_assets := deleted_assets d ++ [p];
            affected_dirs := affected_dirs d ∪ {[OsPath.dirname p]} |}
         (snoc_event w (Removed AssetSite p)).
Proof.
  intros (H1 & H2 & H3). unfold acc_ok, pages_of, assets_of, dirs_of. simpl.
  rewrite !omap_app, list_to_set_app_L. simpl.
  rewrite H1, H2, H3, app_nil_r. split_and!; [done..|].
  by rewrite (right_id_L ∅ (∪)).
Qed.

Lemma acc_ok_remove_page d w p :
  acc_ok d w →
  acc_ok {| deleted_pages := deleted_pages d ++ [p];
            deleted_assets := deleted_assets d;
            affected_dirs := affected_dirs d ∪ {[OsPath.dirname p]} |}
         (snoc_event w (Removed PageSite p)).
Proof.
  intros (H1 & H2 & H3). unfold acc_ok, pages_of, assets_of, dirs_of. simpl.
  rewrite !omap_app, list_to_set_app_L. simpl.
  rewrite H1, H2, H3, app_nil_r. split_and!; [done..|].
  by rewrite (right_id_L ∅ (∪)).
Qed.

Lemma settled_missing dry w p :
  inv dry w → Os.path_exists (w_fs w) p = false → settled dry w p.
Proof.
  intros Hinv Hex. unfold settled. destruct dry; [|done].
  rewrite <-(inv_dry _ Hinv) by done. congruence.
Qed.

Lemma settled_removed s w p : settled false (snoc_event w (Removed s p)) p.
Proof.
  unfold settled. simpl.
  rewrite path_exists_unlink, String.eqb_refl. by rewrite andb_false_r.
Qed.

Lemma remove_asset_ends dry asset d w :
  inv dry w → acc_ok d w → asset_candidate asset →
  ends (remove_asset adm dry asset d w)
    (λ d' w', inv dry w' ∧ acc_ok d' w' ∧ extends w w' ∧ settled dry w' asset)
    (cut dry).
Proof.
  intros Hinv Hacc Hcand. unfold remove_asset.
  apply ends_bind, ends_read.
  destruct (Os.path_exists (w_fs w) asset) eqn:Hex; cycle 1.
  { apply ends_ret. split_and!; [done|done|apply extends_refl|].
    by apply settled_missing. }
  destruct dry.
  - apply ends_bind, ends_print, ends_ret.
    assert (Os.path_exists fs0 asset = true) as Hex0
      by (by rewrite <-(inv_dry _ Hinv)).
    split_and!.
    + apply inv_snoc; [done| |done|by intros ?? [= <- <-]]. by simpl.
    + by apply acc_ok_print.
    + apply extends_snoc.
    + intros _. right. eexists. simpl.
      apply elem_of_app. right. apply list_elem_of_singleton. done.
  - apply ends_bind, ends_remove.
    + intros Hfile. apply ends_ret. split_and!.
      * apply inv_snoc; [done| |done|by intros ?? [= <- <-]]. by simpl.
      * by apply acc_ok_remove_asset.
      * apply extends_snoc.
      * apply settled_removed.
    + intros e He. rewrite (remove_inl _ _ _ He Hex). by split_and!.
Qed.

Lemma remove_page_ends dry rst_file assets d w :
  inv dry w → acc_ok d w → (rst_file, assets) ∈ f2a → qualifies (rst_file, assets) →
  (∀ a, a ∈ assets → settled dry w a) →
  ends (remove_page dry rst_file d w)
    (λ d' w', inv dry w' ∧ acc_ok d' w' ∧ extends w w' ∧ settled dry w' rst_file)
    (cut dry).
Proof.
  intros Hinv Hacc Hin Hq Hassets. unfold remove_page.
  apply ends_bind, ends_read.
  destruct (Os.path_exists (w_fs w) rst_file) eqn:Hex; cycle 1.
  { apply ends_ret. split_and!; [done|done|apply extends_refl|].
    by apply settled_missing. }
  destruct dry.
  - apply ends_bind, ends_print, ends_ret.
    assert (Os.path_exists fs0 rst_file = true) as Hex0
      by (by rewrite <-(inv_dry _ Hinv)).
    split_and!.
    + apply inv_snoc; [done| |done|by intros ?? [= <- <-]]. simpl.
      split_and!; [done| |done]. by exists assets.
    + by apply acc_ok_print.
    + apply extends_snoc.
    + intros _. left. simpl.
      apply elem_of_app. right. apply list_elem_of_singleton. done.
  - apply ends_bind, ends_remove.
    + intros Hfile. apply ends_ret. split_and!.
      * apply inv_snoc; [done| | |by intros ?? [= <- <-]].
        -- simpl. split; [done|]. by exists assets.
        -- intros p [= <-]. exists assets. split_and!; [done..|].
           intros a Ha. by apply (Hassets a Ha).
      * by apply acc_ok_remove_page.
      * apply extends_snoc.
      * apply settled_removed.
    + intros e He. rewrite (remove_inl _ _ _ He Hex). by split_and!.
Qed.

Lemma delete_step_ends dry item d w :
  inv dry w → acc_ok d w → item ∈ f2a →
  ends (delete_step a2f adm dry item d w)
    (λ d' w', inv dry w' ∧ acc_ok d' w' ∧ extends w w' ∧ item_settled dry w' item)
    (cut dry).
Proof.
  intros Hinv Hacc Hin. destruct item as [rst_file assets]. unfold delete_step.
  destruct (decide (assets = ∅)) as [->|Hne].
  { apply ends_ret. split_and!; [done|done|apply extends_refl|].
    by intros [? _]. }
  destruct (all_unique a2f (elements assets)) eqn:Hu; cycle 1.
  { apply ends_ret. split_and!; [done|done|apply extends_refl|].
    intros [_ Hq]. apply not_true_iff_false in Hu. destruct Hu.
    apply all_unique_spec. intros a Ha. apply Hq. by apply elem_of_elements. }
  assert (qualifies (rst_file, assets)) as Hq.
  { split; [done|]. intros a Ha. rewrite all_unique_spec in Hu.
    apply Hu. by apply elem_of_elements. }
  apply ends_bind.
  eapply ends_mono;
    [apply (ends_for_each
              (λ done d' w', inv dry w' ∧ acc_ok d' w' ∧ extends w w'
                             ∧ ∀ a, a ∈ done → settled dry w' a) (cut dry))| |done].
  - split_and!; [done|done|apply extends_refl|]. by intros a ?%elem_of_nil.
  - intros done a rest d1 w1 Hsplit (Hinv1 & Hacc1 & Hext1 & Hdone).
    assert (a ∈ assets) as Ha.
    { apply elem_of_elements. rewrite Hsplit. apply elem_of_app. right. left. }
    eapply ends_mono; [apply remove_asset_ends; [done|done|]| |done].
    + exists (rst_file, assets). by split_and!.
    + intros d2 w2 (Hinv2 & Hacc2 & Hext2 & Hset). simpl.
      split_and!; [done|done|by eapply extends_trans|].
      intros b [Hb| ->%list_elem_of_singleton]%elem_of_app; [|done].
      eapply settled_extends; [done|]. by apply Hdone.
  - intros d1 w1 (Hinv1 & Hacc1 & Hext1 & Hdone). simpl.
    eapply ends_mono; [apply (remove_page_ends dry rst_file assets); try done| |done].
    + intros a Ha. apply Hdone. by apply elem_of_elements.
    + intros d2 w2 (Hinv2 & Hacc2 & Hext2 & Hset). simpl.
      split_and!; [done|done|by eapply extends_trans|].
      intros _ p [->|Hp]; [done|]. simpl in Hp.
      eapply settled_extends; [done|]. apply Hdone. by apply elem_of_elements.
Qed.

(** The engine as a whole: the invariant holds at the end, however the run
    ends; a run that is not cut short has settled every qualifying
    document. *)
Lemma engine_ends dry :
  ends (run (delete_unused_assets_and_pages a2f f2a adm dry) fs0)
    (λ d w, inv dry w ∧ acc_ok d w ∧ ∀ item, item ∈ f2a → item_settled dry w item)
    (cut dry).
Proof.
  unfold run, delete_unused_assets_and_pages.
  eapply ends_mono;
    [apply (ends_for_each
              (λ done d w, inv dry w ∧ acc_ok d w
                           ∧ ∀ item, item ∈ done → item_settled dry w item)
              (cut dry))| |done].
  - split_and!; [apply inv_init|done|]. by intros item ?%elem_of_nil.
  - intros done item rest d w Hsplit (Hinv & Hacc & Hdone).
    eapply ends_mono; [apply delete_step_ends; [done|done|]| |done].
    + rewrite Hsplit. apply elem_of_app. right. left.
    + intros d' w' (Hinv' & Hacc' & Hext & Hset). simpl.
      split_and!; [done|done|].
      intros it [Hit| ->%list_elem_of_singleton]%elem_of_app; [|done].
      intros Hq p Hp. eapply settled_extends; [done|]. by apply (Hdone it).
  - by intros d w (? & ? & ?).
Qed.
End engine.

Section engine_corollaries.
Context (a2f : gmap string (gset string)) (f2a : list (string * gset string))
        (adm : gmap string string) (dry : bool) (fs0 : filesystem).

Let r := run (delete_unused_assets_and_pages a2f f2a adm dry) fs0.

Lemma engine_inv : inv a2f f2a adm dry fs0 r.1.
Proof.
  pose proof (engine_ends a2f f2a adm fs0 dry) as H. fold r in H.
  destruct r as [w [d|e|]]; simpl in *; [by destruct H|by destruct H as (_&_&?)..].
Qed.

Lemma engine_done d :
  r.2 = Done d →
  acc_ok d r.1 ∧ ∀ item, item ∈ f2a → item_settled a2f dry fs0 r.1 item.
Proof.
  pose proof (engine_ends a2f f2a adm fs0 dry) as H. fold r in H.
  destruct r as [w [d'|e|]]; simpl in *; [|done..].
  intros [= ->]. by destruct H as (_ & ? & ?).
Qed.

Lemma engine_raised e : r.2 = Raised e → e = IsADirectoryError ∧ dry = false.
Proof.
  pose proof (engine_ends a2f f2a adm fs0 dry) as H. fold r in H.
  destruct r as [w [d'|e'|]]; simpl in *; [done| |done].
  intros [= ->]. destruct H as ([= ->] & ? & _). done.
Qed.

Lemma engine_no_timeout : r.2 ≠ Timeout.
Proof.
  pose proof (engine_ends a2f f2a adm fs0 dry) as H. fold r in H.
  destruct r as [w [d'|e'|]]; simpl in *; [done|done|]. by destruct H.
Qed.

Lemma engine_event e : e ∈ w_log r.1 → good_event a2f f2a adm dry fs0 e.
Proof.
  intros He. pose proof (inv_events _ engine_inv) as Hall.
  rewrite Forall_forall in Hall. by apply Hall.
Qed.
End engine_corollaries.

(** ** Claims about the deletion engine *)


(** C9 (as the code has it). A document whose expanded asset set is empty is
    skipped: the engine never calls [os.remove] on it as a page, never reports
    it as a page in a dry run and never lists it among the deleted pages.  (It
    can still leave the disk as an asset of a qualifying document.) *)
Theorem empty_document_never_deleted_as_page
    (a2f : gmap string (gset string)) (f2a : list (string * gset string))
    (adm : gmap string string) (dry : bool) (fs0 : filesystem) (D : string) :
  (∀ assets, (D, assets) ∈ f2a → assets = ∅) →
  let r := run (delete_unused_assets_and_pages a2f f2a adm dry) fs0 in
  (Removed PageSite D ∉ w_log r.1)
  ∧ (Printed (WouldDeletePage D) ∉ w_log r.1)
  ∧ ∀ d, r.2 = Done d → D ∉ deleted_pages d.
Proof.
  intros Hempty r.
  assert (¬ page_candidate a2f f2a D) as Hnc.
  { intros (assets & Hin & Hne & _). by apply Hne, Hempty. }
  assert (Removed PageSite D ∉ w_log r.1) as Hno.
  { intros He. apply engine_event in He. simpl in He. by destruct He. }
  split_and!; [done| |].
  - intros He. apply engine_event in He. simpl in He. by destruct He as (_ & ? & _).
  - intros d Hd HD. destruct (engine_done _ _ _ _ _ _ Hd) as ((Hp & _) & _).
    rewrite Hp in HD. unfold pages_of in HD.
    apply list_elem_of_omap in HD as (e & He & Hsome).
    destruct e as [[] p|]; simplify_eq. done.
Qed.


(** C9, counterexample: [footer.rst] has an empty expanded asset set, and a
    real run removes it from disk, as the one asset of [main.rst]. *)
Lemma empty_document_removed_as_asset :
  ∃ idx,
    build_asset_index 3 footer_tree (find_rst_files footer_tree "docs") = Some idx
    ∧ Dict.get (file_to_assets idx) "docs/footer.rst" = Some ∅
    ∧ Os.path_exists footer_tree "docs/footer.rst" = true
    ∧ Os.path_exists
        (w_fs (run (delete_unused_assets_and_pages (asset_to_files idx)
                      (file_to_assets idx) (asset_directive_map idx) false)
                 footer_tree).1)
        "docs/footer.rst" = false
    ∧ w_log (run (execute 3 {| path := "docs"; dry_run := false |}) footer_tree).1
      = [Removed AssetSite "docs/footer.rst"; Removed PageSite "docs/main.rst";
         Removed DirSite "docs";
         Printed (Summary [("include", "docs/footer.rst")] ["docs/main.rst"] ["docs"])].
Proof.
  eexists. split; [vm_compute; reflexivity|]. split_and!; by vm_compute.
Qed.

Lemma empty_document_never_deleted_as_page_witness :
  (Removed PageSite "docs/footer.rst"
     ∉ w_log (run (delete_unused_assets_and_pages
                     {["docs/footer.rst" := {["docs/main.rst"]}]}
                     [("docs/main.rst", {["docs/footer.rst"]}); ("docs/footer.rst", ∅)]
                     {["docs/footer.rst" := "include"]} false) footer_tree).1).
Proof.
  apply (empty_document_never_deleted_as_page
           {["docs/footer.rst" := {["docs/main.rst"]}]}
           [("docs/main.rst", {["docs/footer.rst"]}); ("docs/footer.rst", ∅)]
           {["docs/footer.rst" := "include"]} false footer_tree "docs/footer.rst").
  intros assets Hin.
  apply elem_of_cons in Hin as [[=]|Hin].
  apply list_elem_of_singleton in Hin. by injection Hin.
Defined.

(** ** The index *)

Lemma add_referrers_spec k (l : list string) (m : gmap string (gset string)) a D :
  D ∈ referring (foldl (add_referrer k) m l) a
  ↔ D ∈ referring m a ∨ (D = k ∧ a ∈ l).
Proof.
  revert m. induction l as [|x l IH]; intros m; simpl.
  - split; [by left|]. intros [?|[_ ?%elem_of_nil]]; done.
  - rewrite IH. unfold referring at 1, add_referrer.
    rewrite lookup_insert. case_decide as Hx; simpl.
    + subst x. fold (referring m a). rewrite elem_of_union, elem_of_singleton.
      rewrite elem_of_cons. naive_solver.
    + fold (referring m a). rewrite elem_of_cons. naive_solver.
Qed.

Lemma third_pass_spec (f2a : list (string * gset string)) a D :
  D ∈ referring (third_pass f2a) a ↔ ∃ assets, (D, assets) ∈ f2a ∧ a ∈ assets.
Proof.
  unfold third_pass.
  assert (∀ m : gmap string (gset string),
            D ∈ referring
                  (foldl (λ a2f item, foldl (add_referrer item.1) a2f (elements item.2))
                         m f2a) a
            ↔ D ∈ referring m a ∨ ∃ assets, (D, assets) ∈ f2a ∧ a ∈ assets) as H.
  { induction f2a as [|[k assets] f2a IH]; intros m; simpl.
    - split; [by left|]. intros [?|(? & ?%elem_of_nil & _)]; done.
    - rewrite IH, add_referrers_spec, elem_of_elements. split.
      + intros [[?|[-> ?]]|(assets' & ? & ?)]; [by left|right..].
        * exists assets. split; [left|done].
        * exists assets'. split; [by right|done].
      + intros [?|(assets' & [[= <- <-]|?]%elem_of_cons & ?)].
        * by left; left.
        * left. right. done.
        * right. by exists assets'. }
  rewrite H. unfold referring at 1. rewrite lookup_empty. simpl.
  rewrite elem_of_empty. naive_solver.
Qed.

Lemma grows_refl t : grows t t.
Proof. by split. Qed.

Lemma grows_trans t1 t2 t3 : grows t1 t2 → grows t2 t3 → grows t1 t3.
Proof.
  intros [G1 A1 P1 K1 N1 S1 F1] [G2 A2 P2 K2 N2 S2 F2]. split.
  - congruence.
  - congruence.
  - etrans; [apply P1|apply P2].
  - auto.
  - auto.
  - intros q. etrans; [apply S1|apply S2].
  - intros q Hq. rewrite F2 by (by apply P1). by apply F1.
Qed.

Lemma grows_mark t k : grows t (mark_processed t k).
Proof. split; simpl; try done. apply union_subseteq_l. Qed.

Lemma lookup_assets_store_same t k v : lookup_assets (store_assets t k v) k = v.
Proof. unfold lookup_assets. simpl. by rewrite get_set_same. Qed.

Lemma lookup_assets_store_other t k v q :
  k ≠ q → lookup_assets (store_assets t k v) q = lookup_assets t q.
Proof. intros. unfold lookup_assets. simpl. by rewrite get_set_other. Qed.

Lemma grows_store t t2 k v :
  k ∉ t_processed t → grows t t2 → lookup_assets t k ⊆ v →
  grows t (store_assets t2 k v).
Proof.
  intros Hk [G A P K N S F] Hv. split; simpl; try done.
  - intros q Hq. destruct (decide (k = q)) as [->|Hne].
    + by rewrite get_set_same.
    + rewrite get_set_other by done. by apply K.
  - intros Hn. by apply NoDup_keys_set, N.
  - intros q. destruct (decide (k = q)) as [->|Hne].
    + by rewrite lookup_assets_store_same.
    + rewrite lookup_assets_store_other by done. apply S.
  - intros q Hq. rewrite get_set_other by (intros ->; done). by apply F.
Qed.

Lemma include_loop_grows recurse (included : list string) :
  (∀ k t r t', recurse k t = Some (r, t') → grows t t') →
  ∀ acc t acc' t',
    include_loop recurse included acc t = Some (acc', t') →
    grows t t' ∧ acc ⊆ acc'.
Proof.
  intros Hrec. induction included as [|x l IH]; intros acc t acc' t'; simpl.
  - intros [= <- <-]. split; [apply grows_refl|done].
  - case_decide as Hx; [apply IH|].
    destruct (recurse x t) as [[r t1]|] eqn:Hr; [|done].
    intros [Hg Hsub]%IH. split.
    + eapply grows_trans; [by eapply Hrec|done].
    + etrans; [|done]. apply union_subseteq_l.
Qed.

Lemma process_includes_grows fuel k t r t' :
  process_includes fuel k t = Some (r, t') → grows t t'.
Proof.
  revert k t r t'. induction fuel as [|fuel IH]; intros k t r t'; simpl; [done|].
  case_decide as Hk.
  - intros [= _ <-]. apply grows_refl.
  - destruct (include_loop _ _ _ _) as [[acc t2]|] eqn:Hloop; [|done].
    intros [= _ <-].
    apply include_loop_grows in Hloop as [Hg Hsub]; [|exact IH].
    apply grows_store; [done| |done].
    eapply grows_trans; [apply grows_mark|done].
Qed.

Lemma second_pass_grows fuel (rst_files : list string) t t' :
  second_pass fuel rst_files t = Some t' → grows t t'.
Proof.
  revert t. induction rst_files as [|rst l IH]; intros t; simpl.
  - intros [= <-]. apply grows_refl.
  - destruct (process_includes fuel rst t) as [[r t1]|] eqn:Hp; [|done].
    intros Ht'. eapply grows_trans; [by eapply process_includes_grows|by apply IH].
Qed.

Lemma graph_within_universe rst_files t : graph_within (universe rst_files t) t.
Proof.
  unfold graph_within, universe. intros q l x Hq Hx. apply elem_of_union. right.
  apply elem_of_union_list. exists (list_to_set l). split.
  - apply list_elem_of_fmap. exists l. split; [done|].
    apply list_elem_of_fmap. exists (q, l). split; [done|].
    by apply elem_of_map_to_list.
  - by apply elem_of_list_to_set.
Qed.

Lemma size_unprocessed_mono (U P P' : gset string) :
  P ⊆ P' → size (U ∖ P') ≤ size (U ∖ P).
Proof. intros H. apply subseteq_size. set_solver. Qed.

Lemma size_unprocessed_mark (U P : gset string) k :
  k ∈ U → k ∉ P → size (U ∖ (P ∪ {[k]})) < size (U ∖ P).
Proof.
  intros HU HP. apply subset_size. split; [set_solver|].
  intros H. specialize (H k). set_solver.
Qed.

Lemma process_includes_total (U : gset string) fuel k t :
  graph_within U t → k ∈ U → size (U ∖ t_processed t) < fuel →
  is_Some (process_includes fuel k t).
Proof.
  revert k t. induction fuel as [|fuel IH]; intros k t HU Hk Hsize; [lia|].
  simpl. case_decide as Hproc; [done|].
  assert (∀ (l : list string) acc t1,
            (∀ x, x ∈ l → x ∈ U) → graph_within U t1 →
            size (U ∖ t_processed t1) < fuel →
            is_Some (include_loop (process_includes fuel) l acc t1)) as Hloop.
  { clear k t HU Hk Hsize Hproc.
    induction l as [|x l IHl]; intros acc t1 Hl HU Hsize; simpl; [done|].
    assert (∀ y, y ∈ l → y ∈ U) as Hl' by (intros y Hy; apply Hl; by right).
    case_decide; [by apply IHl|].
    destruct (IH x t1) as [[r t2] Hr];
      [done|apply Hl; left|done|].
    rewrite Hr. pose proof (process_includes_grows _ _ _ _ _ Hr) as Hg.
    apply IHl; [done| |].
    - unfold graph_within. intros q l' y Hq Hy.
      rewrite (grows_graph _ _ Hg) in Hq. by eapply HU.
    - eapply Nat.le_lt_trans; [|done].
      apply size_unprocessed_mono, (grows_processed _ _ Hg). }
  match goal with
  | |- is_Some (match ?x with _ => _ end) => assert (is_Some x) as [[acc t2] ->]
  end; [|done].
  apply Hloop.
  - intros x Hx. destruct (t_include_graph t !! k) as [l|] eqn:Hg; simpl in Hx.
    + by eapply HU.
    + by apply elem_of_nil in Hx.
  - done.
  - simpl. pose proof (size_unprocessed_mark U (t_processed t) k Hk Hproc). lia.
Qed.

Lemma second_pass_total (U : gset string) fuel (rst_files : list string) t :
  graph_within U t → (∀ x, x ∈ rst_files → x ∈ U) → size U < fuel →
  is_Some (second_pass fuel rst_files t).
Proof.
  revert t. induction rst_files as [|rst l IH]; intros t HU Hl Hsize; simpl; [done|].
  destruct (process_includes_total U fuel rst t) as [[r t1] Hr];
    [done|apply Hl; left| |].
  { eapply Nat.le_lt_trans; [|done]. apply subseteq_size. set_solver. }
  rewrite Hr. pose proof (process_includes_grows _ _ _ _ _ Hr) as Hg.
  apply IH; [|intros x Hx; apply Hl; by right|done].
  unfold graph_within. intros q l' y Hq Hy.
  rewrite (grows_graph _ _ Hg) in Hq. by eapply HU.
Qed.

Lemma build_asset_index_total fs rst_files fuel :
  enough_fuel fs rst_files ≤ fuel → is_Some (build_asset_index fuel fs rst_files).
Proof.
  intros Hfuel. unfold build_asset_index.
  set (t := foldl (first_pass_step fs) empty_tables rst_files) in *.
  destruct (second_pass_total (universe rst_files t) fuel rst_files t) as [t' Ht'].
  - apply graph_within_universe.
  - intros x Hx. unfold universe. apply elem_of_union. left.
    by apply elem_of_list_to_set.
  - unfold enough_fuel in Hfuel. fold t in Hfuel. lia.
  - by rewrite Ht'.
Qed.

Lemma record_asset_direct fs rst acc item :
  (record_asset fs rst acc item).2 = acc.2 ∪ {[item.1]}.
Proof.
  destruct acc as [[adm graph] direct], item as [asset directive]. simpl.
  by destruct (_ && _).
Qed.

Lemma record_assets_direct fs rst (items : list (string * string)) acc :
  (foldl (record_asset fs rst) acc items).2 = acc.2 ∪ list_to_set (Dict.keys items).
Proof.
  revert acc. induction items as [|item items IH]; intros acc; cbn [foldl].
  - unfold Dict.keys. by rewrite fmap_nil, list_to_set_nil, (right_id_L ∅ (∪)).
  - rewrite IH, record_asset_direct. unfold Dict.keys.
    by rewrite fmap_cons, list_to_set_cons, (assoc_L (∪)).
Qed.

Lemma first_pass_step_tables fs t rst :
  t_file_to_assets (first_pass_step fs t rst)
  = Dict.set (t_file_to_assets t) rst (direct_assets fs rst)
  ∧ t_processed (first_pass_step fs t rst) = t_processed t.
Proof.
  unfold first_pass_step.
  pose proof (record_assets_direct fs rst (extract_assets fs rst)
                (t_asset_directive_map t, t_include_graph t, ∅)) as H.
  destruct (foldl _ _ _) as [[adm graph] direct]. simpl in *.
  rewrite H, (left_id_L ∅ (∪)). done.
Qed.

Lemma first_pass_tables fs (rst_files : list string) t0 :
  let t := foldl (first_pass_step fs) t0 rst_files in
  t_processed t = t_processed t0
  ∧ (NoDup (Dict.keys (t_file_to_assets t0)) → NoDup (Dict.keys (t_file_to_assets t)))
  ∧ ∀ D, D ∈ rst_files →
         Dict.get (t_file_to_assets t) D = Some (direct_assets fs D).
Proof.
  induction rst_files as [|rst l IH] using rev_ind; simpl.
  - split_and!; [done..|]. by intros D ?%elem_of_nil.
  - rewrite foldl_app. simpl.
    destruct IH as (Hp & Hn & Hget).
    destruct (first_pass_step_tables fs (foldl (first_pass_step fs) t0 l) rst)
      as [-> ->].
    split_and!; [done| |].
    + intros H0. by apply NoDup_keys_set, Hn.
    + intros D HD. destruct (decide (rst = D)) as [->|Hne].
      * by rewrite get_set_same.
      * rewrite get_set_other by done. apply Hget.
        apply elem_of_app in HD as [?| ?%list_elem_of_singleton]; [done|congruence].
Qed.

Section dict_fold.
Context {A V : Type} (key : A → string) (v : V).

Lemma key_in_set (d : list (string * V)) k k' v' :
  k ∈ Dict.keys d → k ∈ Dict.keys (Dict.set d k' v').
Proof.
  intros Hk. destruct (keys_set d k' v') as [->|[-> _]]; [done|].
  apply elem_of_app. by left.
Qed.

Lemma key_set_in (d : list (string * V)) k v' : k ∈ Dict.keys (Dict.set d k v').
Proof.
  unfold Dict.keys. apply list_elem_of_fmap. exists (k, v'). split; [done|].
  apply get_Some_elem, get_set_same.
Qed.

Lemma foldl_set_keys (l : list A) (d : list (string * V)) k :
  k ∈ Dict.keys d ∨ k ∈ key <$> l →
  k ∈ Dict.keys (foldl (λ d m, Dict.set d (key m) v) d l).
Proof.
  revert d. induction l as [|m l IH]; intros d; simpl.
  - intros [?|?%elem_of_nil]; done.
  - intros [Hk|[->|Hk]%elem_of_cons]; apply IH.
    + left. by apply key_in_set.
    + left. apply key_set_in.
    + by right.
Qed.
End dict_fold.

Lemma elem_of_findall directive (content : list (string * string)) m :
  m ∈ findall directive content ↔ (directive, m) ∈ content.
Proof.
  unfold findall. rewrite list_elem_of_In, in_map_iff. split.
  - intros ([d m'] & <- & [Hin Heq]%filter_In). simpl in *.
    apply String.eqb_eq in Heq as ->. by apply list_elem_of_In.
  - intros Hin. exists (directive, m). split; [done|].
    apply filter_In. split; [by apply list_elem_of_In|]. simpl.
    apply String.eqb_refl.
Qed.

Lemma extract_assets_include fs file_path content m :
  Os.stat fs file_path = Some (File content) → ("include", m) ∈ content →
  asset_full_path file_path m ∈ direct_assets fs file_path.
Proof.
  intros Hstat Hm. unfold direct_assets, extract_assets, Os.path_exists, Os.path_isfile.
  rewrite Hstat. simpl. apply elem_of_list_to_set.
  apply (foldl_set_keys (asset_full_path file_path) "include"). right.
  apply list_elem_of_fmap. exists m. split; [done|]. by apply elem_of_findall.
Qed.

Lemma referring_unique (a2f : gmap string (gset string)) a D :
  referrers a2f a ≤ 1 → D ∈ referring a2f a → referring a2f a = {[D]}.
Proof.
  unfold referrers. intros Hsize HD. symmetry.
  apply set_subseteq_size_eq.
  - by apply singleton_subseteq_l.
  - by rewrite size_singleton.
Qed.

Lemma build_asset_index_facts fuel fs (rst_files : list string) idx :
  build_asset_index fuel fs rst_files = Some idx →
  NoDup (Dict.keys (file_to_assets idx))
  ∧ asset_to_files idx = third_pass (file_to_assets idx)
  ∧ ∀ D, D ∈ rst_files →
         ∃ assets, Dict.get (file_to_assets idx) D = Some assets
                   ∧ direct_assets fs D ⊆ assets.
Proof.
  unfold build_asset_index.
  destruct (first_pass_tables fs rst_files empty_tables) as (Hp & Hn & Hget).
  destruct (second_pass _ _ _) as [t|] eqn:Hsecond; [|done].
  intros [= <-]. simpl. apply second_pass_grows in Hsecond as Hg.
  split_and!; [|done|].
  - apply (grows_nodup _ _ Hg), Hn. constructor.
  - intros D HD. specialize (Hget D HD).
    destruct (grows_keys _ _ Hg D) as [assets Hassets]; [by rewrite Hget|].
    exists assets. split; [done|].
    pose proof (grows_assets _ _ Hg D) as Hsub.
    unfold lookup_assets in Hsub. by rewrite Hget, Hassets in Hsub.
Qed.

(** C10. Every include target found in a document of the run, on disk or
    not, is in that document's asset set of the index (which is always built,
    given enough recursion depth), so the document is one of its referring
    documents in the classification; and when the including document
    qualifies, a completed real run leaves no such target on disk. *)
Theorem include_target_recorded_as_asset
    (fs : filesystem) (rst_files : list string) (D : string)
    (content : list (string * string)) (m : string) :
  D ∈ rst_files →
  Os.stat fs D = Some (File content) →
  ("include", m) ∈ content →
  ∀ fuel, enough_fuel fs rst_files ≤ fuel →
    ∃ idx assets,
      build_asset_index fuel fs rst_files = Some idx
      ∧ Dict.get (file_to_assets idx) D = Some assets
      ∧ asset_full_path D m ∈ assets
      ∧ D ∈ referring (asset_to_files idx) (asset_full_path D m)
      ∧ (qualifies (asset_to_files idx) (D, assets) →
         referring (asset_to_files idx) (asset_full_path D m) = {[D]}
         ∧ ∀ r,
             r = run (delete_unused_assets_and_pages (asset_to_files idx)
                        (file_to_assets idx) (asset_directive_map idx) false) fs →
             (∃ d, r.2 = Done d) →
             Os.path_exists (w_fs r.1) (asset_full_path D m) = false).
Proof.
  intros HD Hstat Hm fuel Hfuel.
  destruct (build_asset_index_total fs rst_files fuel Hfuel) as [idx Hidx].
  destruct (build_asset_index_facts _ _ _ _ Hidx) as (Hnodup & Ha2f & Hdirect).
  destruct (Hdirect D HD) as (assets & Hget & Hsub).
  assert (asset_full_path D m ∈ assets) as Hin
    by (by eapply Hsub, extract_assets_include).
  assert (D ∈ referring (asset_to_files idx) (asset_full_path D m)) as Href.
  { rewrite Ha2f. apply third_pass_spec. exists assets.
    split; [by apply get_Some_elem|done]. }
  exists idx, assets. split_and!; [done..|].
  intros Hq. split.
  - apply referring_unique; [|done]. by apply (proj2 Hq).
  - intros r -> [d Hd].
    destruct (engine_done _ _ _ _ _ _ Hd) as [_ Hsettled].
    apply (Hsettled (D, assets)); [by apply get_Some_elem|done|by right].
Qed.

Lemma removed_from_disk a2f f2a adm dry fs0 q :
  let r := run (delete_unused_assets_and_pages a2f f2a adm dry) fs0 in
  Os.path_exists fs0 q = true → Os.path_exists (w_fs r.1) q = false →
  ∃ s p, Removed s p ∈ w_log r.1 ∧ Os.resolve fs0 p = Os.resolve fs0 q.
Proof.
  intros r H0 H1. subst r.
  rewrite (inv_tracked _ (engine_inv a2f f2a adm dry fs0)) in H1.
  rewrite path_exists_replay, H0 in H1. simpl in H1.
  apply negb_false_iff, existsb_exists in H1 as (e & He & Hrm).
  destruct e as [s p|]; [|done]. simpl in Hrm. apply String.eqb_eq in Hrm.
  exists s, p. split; [by apply list_elem_of_In|done].
Qed.




Lemma include_target_recorded_as_asset_witness :
  ∃ idx assets,
    build_asset_index 3 footer_tree ["docs/main.rst"; "docs/footer.rst"] = Some idx
    ∧ Dict.get (file_to_assets idx) "docs/main.rst" = Some assets
    ∧ asset_full_path "docs/main.rst" "footer.rst" ∈ assets
    ∧ "docs/main.rst"
        ∈ referring (asset_to_files idx) (asset_full_path "docs/main.rst" "footer.rst")
    ∧ (qualifies (asset_to_files idx) ("docs/main.rst", assets) →
       referring (asset_to_files idx) (asset_full_path "docs/main.rst" "footer.rst")
       = {["docs/main.rst"]}
       ∧ ∀ r,
           r = run (delete_unused_assets_and_pages (asset_to_files idx)
                      (file_to_assets idx) (asset_directive_map idx) false)
                 footer_tree →
           (∃ d, r.2 = Done d) →
           Os.path_exists (w_fs r.1) (asset_full_path "docs/main.rst" "footer.rst")
           = false).
Proof.
  apply (include_target_recorded_as_asset footer_tree
           ["docs/main.rst"; "docs/footer.rst"] "docs/main.rst"
           [("include", "footer.rst")] "footer.rst").
  - left.
  - reflexivity.
  - left.
  - vm_compute. lia.
Defined.

(** ** The directory pruner and the pipeline *)

Lemma appends_refl P w : appends P w w.
Proof. exists []. by rewrite app_nil_r. Qed.

Lemma appends_trans P w1 w2 w3 : appends P w1 w2 → appends P w2 w3 → appends P w1 w3.
Proof.
  intros (l1 & H1 & F1) (l2 & H2 & F2). exists (l1 ++ l2). split.
  - by rewrite H2, H1, app_assoc.
  - by apply Forall_app.
Qed.

Lemma appends_snoc (P : event → Prop) w e : P e → appends P w (snoc_event w e).
Proof. intros He. exists [e]. split; [done|]. by constructor. Qed.

(** The climb only reads the disk. *)
Lemma climb_ends fuel original_path parent all_dirs w :
  ends (climb fuel original_path parent all_dirs w)
    (λ _ w', w' = w) (λ e w', e = None ∧ w' = w).
Proof.
  revert parent all_dirs. induction fuel as [|fuel IH]; intros parent all_dirs.
  - by apply ends_diverge.
  - cbn [climb]. apply ends_bind, ends_read.
    destruct (_ && _); [apply IH|by apply ends_ret].
Qed.

Lemma expand_dirs_ends fuel dirs original_path w :
  ends (expand_dirs fuel dirs original_path w)
    (λ _ w', w' = w) (λ e w', e = None ∧ w' = w).
Proof.
  unfold expand_dirs.
  eapply ends_mono;
    [apply (ends_for_each (λ _ _ w', w' = w) (λ e w', e = None ∧ w' = w))| |done].
  - done.
  - intros done x rest s w' _ ->. apply climb_ends.
  - done.
Qed.

Lemma prune_step_ends dry dir_path deleted_dirs w :
  ends (prune_step dry dir_path deleted_dirs w)
    (λ _ w', appends tail_event w w') (λ _ _, False).
Proof.
  unfold prune_step. apply ends_bind, ends_read.
  destruct (Os.path_exists _ _ && Os.path_isdir _ _) eqn:Hdir; cbn [negb];
    [|apply ends_ret, appends_refl].
  apply andb_true_iff in Hdir as [_ Hdir].
  apply ends_bind, ends_read.
  destruct (Os.listdir (w_fs w) dir_path) eqn:Hls; [|apply ends_ret, appends_refl].
  destruct dry.
  - apply ends_bind, ends_print, ends_ret. by apply appends_snoc.
  - apply ends_bind, ends_rmdir; [done..|]. apply ends_ret. by apply appends_snoc.
Qed.

Lemma prune_root_ends dry original_path deleted_dirs w :
  ends (prune_root dry original_path deleted_dirs w)
    (λ _ w', appends tail_event w w') (λ _ _, False).
Proof.
  unfold prune_root. apply ends_bind, ends_read.
  destruct (Os.path_isdir (w_fs w) original_path) eqn:Hdir;
    [|apply ends_ret, appends_refl].
  apply ends_bind, ends_read.
  destruct (Os.listdir (w_fs w) original_path) eqn:Hls; [|apply ends_ret, appends_refl].
  destruct dry.
  - apply ends_bind, ends_print, ends_ret. by apply appends_snoc.
  - apply ends_bind, ends_rmdir; [done..|]. apply ends_ret. by apply appends_snoc.
Qed.

(** The pruner never raises; it logs removals of directories only. *)
Lemma remove_empty_dirs_ends fuel dirs original_path dry w :
  ends (remove_empty_dirs fuel dirs original_path dry w)
    (λ _ w', appends tail_event w w') (λ e w', e = None ∧ w' = w).
Proof.
  unfold remove_empty_dirs. apply ends_bind.
  eapply ends_mono; [apply expand_dirs_ends| |done].
  intros all_dirs w' ->. simpl. apply ends_bind.
  eapply ends_mono;
    [apply (ends_for_each (λ _ _ w', appends tail_event w w') (λ _ _, False))| |done].
  - apply appends_refl.
  - intros done x rest s w1 _ Hw1.
    eapply ends_mono; [apply prune_step_ends| |done].
    intros ? w2 Hw2. eapply appends_trans; [exact Hw1|exact Hw2].
  - intros deleted_dirs w1 Hw1. simpl.
    eapply ends_mono; [apply prune_root_ends| |done].
    intros ? w2 Hw2. eapply appends_trans; [exact Hw1|exact Hw2].
Qed.

Lemma execute_eq fuel a fs :
  run (execute fuel a) fs =
  match find_rst_files fs (path a) with
  | [] => ({| w_fs := fs; w_log := [Printed (NoRstFiles (path a))] |}, Done tt)
  | rst :: rest =>
      match build_asset_index fuel fs (rst :: rest) with
      | None => ({| w_fs := fs; w_log := [] |}, Timeout)
      | Some idx =>
          match run (delete_unused_assets_and_pages (asset_to_files idx)
                       (file_to_assets idx) (asset_directive_map idx) (dry_run a))
                  fs with
          | (w, Done d) =>
              execute_tail fuel a (OsPath.abspath (cwd fs) (path a)) idx d w
          | (w, Raised e) => (w, Raised e)
          | (w, Timeout) => (w, Timeout)
          end
      end
  end.
Proof.
  unfold execute, run, mbind, M_bind, read_fs. cbn [w_fs].
  destruct (find_rst_files fs (path a)) as [|rst rest]; [done|]. cbn [w_fs].
  destruct (build_asset_index fuel fs (rst :: rest)) as [idx|]; [|done].
  by destruct (delete_unused_assets_and_pages _ _ _ _ _) as [w [d|e|]].
Qed.

Lemma execute_tail_ends fuel a original_path idx d w :
  ends (execute_tail fuel a original_path idx d w)
    (λ _ w', appends tail_event w w') (λ e w', e = None ∧ w' = w).
Proof.
  unfold execute_tail. apply ends_bind.
  eapply ends_mono with (Q := λ _ w', appends tail_event w w')
                        (X := λ e w', e = None ∧ w' = w); [| |done].
  - case_decide; [apply ends_ret, appends_refl|apply remove_empty_dirs_ends].
  - intros deleted_dirs w1 Hw1. simpl. destruct (dry_run a); [by apply ends_ret|].
    apply ends_print. eapply appends_trans; [done|]. by apply appends_snoc.
Qed.

(** ** Dry run against real run *)

Lemma candidate_settled a2f f2a dry fs0 w p :
  (∀ item, item ∈ f2a → item_settled a2f dry fs0 w item) →
  candidate a2f f2a p → settled dry fs0 w p.
Proof.
  intros Hall [(item & Hin & Hq & Hp)|(assets & Hin & Hq)].
  - apply (Hall item Hin Hq). by right.
  - apply (Hall (p, assets) Hin Hq). by left.
Qed.

Section dry_and_real.
Context (a2f : gmap string (gset string)) (f2a : list (string * gset string))
        (adm : gmap string string) (fs0 : filesystem).

Let engine dry := run (delete_unused_assets_and_pages a2f f2a adm dry) fs0.

Lemma dry_engine_done : ∃ d, (engine true).2 = Done d.
Proof.
  destruct (engine true).2 as [d|e|] eqn:H; [by exists d| |].
  - by destruct (engine_raised _ _ _ _ _ _ H).
  - by destruct (engine_no_timeout _ _ _ _ _ H).
Qed.

Lemma dry_engine_quiet s p : Removed s p ∉ w_log (engine true).1.
Proof. intros He%engine_event. destruct s; simpl in He; by destruct He. Qed.

Lemma dry_engine_disk : w_fs (engine true).1 = fs0.
Proof. by apply (inv_dry _ (engine_inv a2f f2a adm true fs0)). Qed.

Lemma dry_engine_no_dirs d :
  (engine true).2 = Done d → affected_dirs d = ∅.
Proof.
  intros Hd. destruct (engine_done _ _ _ _ _ _ Hd) as [(_ & _ & ->) _].
  unfold dirs_of. pose proof dry_engine_quiet as Hquiet. unfold engine in Hquiet.
  induction (w_log _) as [|e l IH]; [done|].
  assert (∀ s p, Removed s p ∉ l) as Hl.
  { intros s p Hin. apply (Hquiet s p). by right. }
  destruct e as [s p|m]; simpl.
  - exfalso. apply (Hquiet s p). left.
  - by apply IH.
Qed.

Lemma dry_engine_reported p :
  reported (w_log (engine true).1) p
  ↔ candidate a2f f2a p ∧ Os.path_exists fs0 p = true.
Proof.
  split.
  - intros [He|[d He]]; apply engine_event in He; simpl in He.
    + destruct He as (_ & ? & ?). split; [by right|done].
    + destruct He as (_ & _ & ? & ?). split; [by left|done].
  - intros [Hc Hex]. destruct dry_engine_done as [d Hd].
    destruct (engine_done _ _ _ _ _ _ Hd) as [_ Hall].
    by apply (candidate_settled _ _ _ _ _ _ Hall Hc).
Qed.

Lemma real_engine_removed q :
  (∃ d, (engine false).2 = Done d) →
  file_removed fs0 (w_log (engine false).1) q
  ↔ ∃ p, candidate a2f f2a p ∧ Os.path_exists fs0 p = true ∧ Os.resolve fs0 p = q.
Proof.
  intros [d Hd]. split.
  - intros (s & p & He & Hs & Hq). exists p. split_and!; [|by eapply (inv_present _
      (engine_inv a2f f2a adm false fs0))|done].
    apply engine_event in He. destruct Hs as [-> | ->]; simpl in He.
    + left. by destruct He.
    + right. by destruct He.
  - intros (p & Hc & Hex & Hq).
    destruct (engine_done _ _ _ _ _ _ Hd) as [_ Hall].
    pose proof (candidate_settled _ _ _ _ _ _ Hall Hc) as Hgone.
    destruct (removed_from_disk a2f f2a adm false fs0 p Hex Hgone) as (s & p' & He & Hp').
    exists s, p'. split_and!; [done| |congruence].
    apply engine_event in He. destruct s; simpl in He; [by left|by right|done..].
Qed.
End dry_and_real.

Lemma file_removed_appends fs w w' q :
  appends tail_event w w' →
  file_removed fs (w_log w') q ↔ file_removed fs (w_log w) q.
Proof.
  intros (l & -> & Hl). unfold file_removed. split.
  - intros (s & p & [Hin|Hin]%elem_of_app & Hs & Hq); [by exists s, p|].
    rewrite Forall_forall in Hl. apply Hl in Hin. simpl in Hin.
    by destruct Hs as [-> | ->].
  - intros (s & p & Hin & Hs & Hq). exists s, p. split_and!; [|done..].
    apply elem_of_app. by left.
Qed.

Lemma execute_tail_dry fuel root original_path idx d w :
  affected_dirs d = ∅ →
  execute_tail fuel {| path := root; dry_run := true |} original_path idx d w
  = (w, Done tt).
Proof.
  intros H. unfold execute_tail, mbind, M_bind. cbn [dry_run].
  by rewrite decide_True by done.
Qed.

(** C4 (as the code has it). A dry run of the pipeline leaves the disk as it
    was and removes nothing; when the real run raises no exception, the
    files the dry run reports are exactly the files the real run removes as
    assets or pages; but a dry run records no affected directory, so it never
    reaches the pruner and reports no directory. *)
Theorem dry_run_reports_files_only (fuel : nat) (root : string) (fs : filesystem) :
  let dry := run (execute fuel {| path := root; dry_run := true |}) fs in
  let real := run (execute fuel {| path := root; dry_run := false |}) fs in
  w_fs dry.1 = fs
  ∧ (∀ s p, Removed s p ∉ w_log dry.1)
  ∧ (∀ d, Printed (WouldDeleteDir d) ∉ w_log dry.1)
  ∧ ((∀ e, real.2 ≠ Raised e) →
     ∀ q, file_reported fs (w_log dry.1) q ↔ file_removed fs (w_log real.1) q).
Proof.
  intros dry real. subst dry real. rewrite !execute_eq. cbn [path dry_run].
  destruct (find_rst_files fs root) as [|rst rest].
  { cbn. unfold file_reported, file_removed, reported. set_solver. }
  destruct (build_asset_index fuel fs (rst :: rest)) as [idx|].
  2:{ cbn. unfold file_reported, file_removed, reported. set_solver. }
  set (a2f := asset_to_files idx). set (f2a := file_to_assets idx).
  set (adm := asset_directive_map idx).
  (* the dry run ends with the engine *)
  destruct (dry_engine_done a2f f2a adm fs) as [dd Hdd].
  pose proof (dry_engine_no_dirs a2f f2a adm fs dd Hdd) as Hnone.
  pose proof (dry_engine_quiet a2f f2a adm fs) as Hquiet.
  pose proof (dry_engine_disk a2f f2a adm fs) as Hdisk.
  pose proof (dry_engine_reported a2f f2a adm fs) as Hrep.
  assert (∀ d, Printed (WouldDeleteDir d)
               ∉ w_log (run (delete_unused_assets_and_pages a2f f2a adm true) fs).1)
    as Hnodir.
  { intros d He%engine_event. done. }
  destruct (run (delete_unused_assets_and_pages a2f f2a adm true) fs)
    as [wd od]. simpl in Hdd, Hquiet, Hdisk, Hrep, Hnodir. subst od.
  rewrite execute_tail_dry by done. cbn [fst snd].
  split; [done|split; [exact Hquiet|split; [exact Hnodir|]]].
  intros Hreal q.
  (* the real run continues after the engine *)
  pose proof (real_engine_removed a2f f2a adm fs q) as Hrem.
  pose proof (engine_no_timeout a2f f2a adm false fs) as Hnt.
  destruct (run (delete_unused_assets_and_pages a2f f2a adm false) fs)
    as [wr [dr|e|]]; simpl in Hrem, Hnt; [|by destruct (Hreal e)|done].
  pose proof (execute_tail_ends fuel {| path := root; dry_run := false |}
                (OsPath.abspath (cwd fs) root) idx dr wr) as Htail.
  assert (appends tail_event wr
            (execute_tail fuel {| path := root; dry_run := false |}
               (OsPath.abspath (cwd fs) root) idx dr wr).1) as Happ.
  { destruct (execute_tail _ _ _ _ _ _) as [w' [[]|e|]]; simpl in *;
      [done|by destruct Htail|]. destruct Htail as [_ ->]. apply appends_refl. }
  rewrite (file_removed_appends _ _ _ _ Happ), Hrem by eauto.
  unfold file_reported. setoid_rewrite Hrep. naive_solver.
Qed.

Lemma dry_run_reports_files_only_witness :
  file_reported page_tree
    (w_log (run (execute 3 {| path := "/w/docs"; dry_run := true |}) page_tree).1)
    "/w/docs/sub/img.png"
  ↔ file_removed page_tree
      (w_log (run (execute 3 {| path := "/w/docs"; dry_run := false |}) page_tree).1)
      "/w/docs/sub/img.png".
Proof.
  apply (proj2 (proj2 (proj2 (dry_run_reports_files_only 3 "/w/docs" page_tree)))).
  intros e. vm_compute. discriminate.
Defined.

(** C4, counterexample: on the tree of one page under the root [/w/docs] the
    real run removes the directories [/w/docs/sub] and [/w/docs]; the dry run
    reports the two files and no directory. *)
Lemma dry_run_reports_no_directory :
  w_log (run (execute 3 {| path := "/w/docs"; dry_run := false |}) page_tree).1
  = [Removed AssetSite "/w/docs/sub/img.png";
     Removed PageSite "/w/docs/sub/page.rst";
     Removed DirSite "/w/docs/sub";
     Removed RootSite "/w/docs";
     Printed (Summary [("image", "/w/docs/sub/img.png")] ["/w/docs/sub/page.rst"]
                ["/w/docs/sub"; "/w/docs"])]
  ∧ w_log (run (execute 3 {| path := "/w/docs"; dry_run := true |}) page_tree).1
    = [Printed (WouldDeleteAsset "image" "/w/docs/sub/img.png");
       Printed (WouldDeletePage "/w/docs/sub/page.rst")].
Proof. split; by vm_compute. Qed.

(** ** Where the code departs from the specification *)

(** C2, failing input. [img.png] is one include hop away from [main.rst], but
    [inc.rst] is processed first, so the loop of [process_includes] skips it
    when it comes to [main.rst]: the asset set of [main.rst] lacks [img.png]
    and the referring documents of [img.png] lack [main.rst].  With the two
    documents in the other order both are there. *)
Theorem include_processed_first_loses_assets :
  find_rst_files include_tree "docs" = ["docs/inc.rst"; "docs/main.rst"]
  ∧ extract_assets include_tree "docs/main.rst" = [("docs/inc.rst", "include")]
  ∧ extract_assets include_tree "docs/inc.rst" = [("docs/img.png", "image")]
  ∧ (∃ idx,
       build_asset_index 3 include_tree ["docs/inc.rst"; "docs/main.rst"] = Some idx
       ∧ Dict.get (file_to_assets idx) "docs/main.rst" = Some {["docs/inc.rst"]}
       ∧ referring (asset_to_files idx) "docs/img.png" = {["docs/inc.rst"]})
  ∧ (∃ idx,
       build_asset_index 3 include_tree ["docs/main.rst"; "docs/inc.rst"] = Some idx
       ∧ Dict.get (file_to_assets idx) "docs/main.rst"
         = Some {["docs/inc.rst"; "docs/img.png"]}
       ∧ referring (asset_to_files idx) "docs/img.png"
         = {["docs/main.rst"; "docs/inc.rst"]}).
Proof.
  split_and!; [by vm_compute..| |];
    (eexists; split; [vm_compute; reflexivity|]; split; by vm_compute).
Qed.

(** C3, failing input. Expansion of the two-document cycle terminates, and
    [a.rst], processed first, gets the union of the direct asset sets; but
    [b.rst] keeps its direct assets only, because [a.rst] is already marked
    as processed when the loop of [b.rst] reaches it. *)
Theorem cycle_second_document_keeps_direct_assets :
  direct_assets cycle_tree "docs/a.rst" = {["docs/b.rst"; "docs/a.png"]}
  ∧ direct_assets cycle_tree "docs/b.rst" = {["docs/a.rst"; "docs/b.png"]}
  ∧ ∃ idx,
      build_asset_index 3 cycle_tree ["docs/a.rst"; "docs/b.rst"] = Some idx
      ∧ Dict.get (file_to_assets idx) "docs/a.rst"
        = Some (direct_assets cycle_tree "docs/a.rst"
                ∪ direct_assets cycle_tree "docs/b.rst")
      ∧ Dict.get (file_to_assets idx) "docs/b.rst"
        = Some (direct_assets cycle_tree "docs/b.rst")
      ∧ direct_assets cycle_tree "docs/b.rst"
        ≠ direct_assets cycle_tree "docs/a.rst" ∪ direct_assets cycle_tree "docs/b.rst".
Proof.
  split_and!; [by vm_compute..|].
  eexists. split; [vm_compute; reflexivity|]. split_and!; [by vm_compute..|].
  intros H. assert ("docs/a.png" ∈ direct_assets cycle_tree "docs/b.rst") as Hin.
  { rewrite H. apply elem_of_union. left. by vm_compute. }
  by vm_compute in Hin.
Qed.

(** C5, failing input. The first run removes [d.rst] (as the one asset of
    [q.rst], whose set lacks [x.png] because [d.rst] was processed first) and
    [q.rst]; [x.png] stays, shared by [d.rst] and [e.rst].  The second run,
    over the tree the first one left, finds [x.png] referred to by [e.rst]
    alone and removes [x.png], [e.rst] and the directory. *)
Theorem second_run_deletes_more :
  let a := {| path := "docs"; dry_run := false |} in
  let first := run (execute 4 a) shared_tree in
  let second := run (execute 4 a) (w_fs first.1) in
  first.2 = Done tt
  ∧ w_log first.1
    = [Removed AssetSite "docs/d.rst"; Removed PageSite "docs/q.rst";
       Printed (Summary [("include", "docs/d.rst")] ["docs/q.rst"] [])]
  ∧ second.2 = Done tt
  ∧ w_log second.1
    = [Removed AssetSite "docs/x.png"; Removed PageSite "docs/e.rst";
       Removed DirSite "docs";
       Printed (Summary [("image", "docs/x.png")] ["docs/e.rst"] ["docs"])].
Proof. by vm_compute. Qed.

(** C6, failing input. Invoked with the relative path [a/docs], the climb
    compares the relative parents with the absolute [original_path], never
    finds it, and adds [a], the directory above the root; the pass then
    removes the root [a/docs] and, now empty, [a]. *)
Theorem directory_above_root_removed :
  let a := {| path := "a/docs"; dry_run := false |} in
  let r := run (execute 3 a) nested_tree in
  OsPath.abspath (cwd nested_tree) (path a) = "/w/a/docs"
  ∧ Os.resolve nested_tree "a" = "/w/a"
  ∧ r.2 = Done tt
  ∧ w_log r.1
    = [Removed AssetSite "a/docs/img.png"; Removed PageSite "a/docs/page.rst";
       Removed DirSite "a/docs"; Removed DirSite "a";
       Printed (Summary [("image", "a/docs/img.png")] ["a/docs/page.rst"]
                  ["a/docs"; "a"])]
  ∧ Os.path_isdir nested_tree "/w/a" = true
  ∧ Os.path_exists (w_fs r.1) "/w/a" = false.
Proof. by vm_compute. Qed.

(** Once the climb is at ["/"] it stays there: [dirname "/"] is ["/"]. *)
Lemma climb_from_top_never_ends fuel original_path all_dirs w :
  Os.path_exists (w_fs w) "/" = true → original_path ≠ "/" →
  climb fuel original_path "/" all_dirs w = (w, Timeout).
Proof.
  intros Htop Hroot. revert all_dirs.
  induction fuel as [|fuel IH]; intros all_dirs; [done|].
  cbn [climb]. unfold mbind, M_bind, read_fs. rewrite Htop.
  destruct (String.eqb_spec "/" original_path) as [<-|_]; [done|].
  apply IH.
Qed.

(** C7, failing input. When the root itself is an affected directory the
    climb starts above it, never meets [original_path] and reaches ["/"],
    where it loops: whatever the bound on the iterations, the pruner does not
    return, and the root, a directory that is empty, is not removed.  In the
    pipeline this is the page that lies directly in the root, given by its
    absolute path. *)
Theorem affected_root_is_never_pruned (fuel : nat) :
  Os.path_isdir empty_root_tree "/w/docs" = true
  ∧ Os.listdir empty_root_tree "/w/docs" = []
  ∧ run (remove_empty_dirs fuel {["/w/docs"]} "/w/docs" false) empty_root_tree
    = ({| w_fs := empty_root_tree; w_log := [] |}, Timeout)
  ∧ run (execute 64 {| path := "/w/docs"; dry_run := false |}) flat_tree
    = ({| w_fs := empty_root_tree;
          w_log := [Removed AssetSite "/w/docs/img.png";
                    Removed PageSite "/w/docs/page.rst"] |}, Timeout).
Proof.
  split_and!; [by vm_compute..| |by vm_compute].
  unfold run, remove_empty_dirs, expand_dirs, mbind, M_bind.
  rewrite elements_singleton. cbn [for_each].
  unfold mbind, M_bind.
  destruct fuel as [|fuel]; [done|].
  cbn [climb]. unfold mbind, M_bind, read_fs. cbn [w_fs].
  replace (OsPath.dirname "/w/docs") with "/w" by (by vm_compute).
  replace (Str.truthy "/w" && Os.path_exists empty_root_tree "/w"
           && negb (String.eqb "/w" "/w/docs")) with true by (by vm_compute).
  replace (OsPath.dirname "/w") with "/" by (by vm_compute).
  by rewrite climb_from_top_never_ends.
Qed.

(** ** What the pruner does keep to *)

#[local] Instance deeper_first_total : Total deeper_first.
Proof. intros x y. unfold deeper_first. lia. Qed.

#[local] Instance deeper_first_trans : Transitive deeper_first.
Proof. intros x y z. unfold deeper_first. lia. Qed.

(** The candidates are processed deepest first: no directory comes before a
    directory with more separators in its path. *)
Lemma sorted_dirs_deepest_first (all_dirs : gset string) :
  StronglySorted deeper_first (sorted_dirs all_dirs).
Proof. apply StronglySorted_merge_sort; apply _. Qed.

Lemma sorted_dirs_elem_of (all_dirs : gset string) d :
  d ∈ sorted_dirs all_dirs ↔ d ∈ all_dirs.
Proof.
  unfold sorted_dirs. rewrite merge_sort_Permutation. apply elem_of_elements.
Qed.










(** * Further properties of the code *)

(** ** Finding the documents and reading their directives *)

Lemma endswith_app a b suffix :
  Str.endswith b suffix = true → Str.endswith (a +:+ b) suffix = true.
Proof.
  intros H. induction a as [|c a IH]; [done|].
  change (String c a +:+ b) with (String c (a +:+ b)).
  cbn [Str.endswith]. rewrite IH. apply orb_true_r.
Qed.

Lemma join_endswith a b suffix :
  Str.endswith b suffix = true → Str.endswith (OsPath.join a b) suffix = true.
Proof.
  intros H. unfold OsPath.join. destruct (Str.startswith_sep b); [done|].
  destruct (_ || _); apply endswith_app; [done|].
  cbn [Str.endswith]. rewrite H. apply orb_true_r.
Qed.

(** X1. Every path [find_rst_files] returns ends in [.rst], whether the
    argument is a single file or a directory that is walked. *)
Theorem find_rst_files_only_rst fs path p :
  p ∈ find_rst_files fs path → Str.endswith p ".rst" = true.
Proof.
  unfold find_rst_files.
  destruct (Os.path_isfile fs path && Str.endswith path ".rst") eqn:E.
  - intros ->%list_elem_of_singleton. by apply andb_true_iff in E as [_ ?].
  - rewrite list_elem_of_In, in_concat. intros (l & Hl & Hp).
    apply in_map_iff in Hl as ([[root dirs] files] & <- & _).
    apply in_map_iff in Hp as (file & <- & Hfile).
    apply join_endswith. by apply filter_In in Hfile as [_ ?].
Qed.

Lemma find_rst_files_only_rst_witness : Str.endswith "docs/inc.rst" ".rst" = true.
Proof.
  apply (find_rst_files_only_rst include_tree "docs" "docs/inc.rst").
  vm_compute. left.
Defined.

Lemma walk_not_dir fs top : Os.path_isdir fs top = false → Os.walk fs top = [].
Proof. intros H. unfold Os.walk. cbn [Os.walk_depth]. by rewrite H. Qed.

(** X2. When the path given to [execute] is neither a directory nor a regular
    file whose name ends in [.rst] (a missing path, say), [find_rst_files]
    finds nothing: the run prints that no document was found, touches
    nothing on disk and returns. *)
Theorem nothing_to_scan_changes_nothing fuel a fs :
  Os.path_isdir fs (path a) = false →
  Os.path_isfile fs (path a) && Str.endswith (path a) ".rst" = false →
  run (execute fuel a) fs
  = ({| w_fs := fs; w_log := [Printed (NoRstFiles (path a))] |}, Done tt).
Proof.
  intros Hdir Hfile. rewrite execute_eq. unfold find_rst_files.
  by rewrite Hfile, walk_not_dir.
Qed.

Lemma nothing_to_scan_changes_nothing_witness :
  run (execute 1 {| path := "docs/plain.txt"; dry_run := false |}) plain_tree
  = ({| w_fs := plain_tree; w_log := [Printed (NoRstFiles "docs/plain.txt")] |},
     Done tt).
Proof.
  apply (nothing_to_scan_changes_nothing 1
           {| path := "docs/plain.txt"; dry_run := false |} plain_tree); reflexivity.
Defined.

Section dict_fold_get.
Context {A V : Type} (key : A → string) (v : V).

Lemma foldl_set_get (l : list A) (d : list (string * V)) k :
  Dict.get (foldl (λ d m, Dict.set d (key m) v) d l) k
  = if decide (k ∈ key <$> l) then Some v else Dict.get d k.
Proof.
  revert d. induction l as [|m l IH]; intros d; cbn [foldl].
  - rewrite decide_False; [done|]. apply not_elem_of_nil.
  - rewrite IH, fmap_cons. destruct (decide (k ∈ key <$> l)) as [Hin|Hnin].
    + rewrite decide_True; [done|]. by right.
    + destruct (decide (key m = k)) as [<-|Hne].
      * rewrite get_set_same, decide_True; [done|]. left.
      * rewrite get_set_other by done. rewrite decide_False; [done|].
        rewrite elem_of_cons. naive_solver.
Qed.

Lemma foldl_set_NoDup (l : list A) (d : list (string * V)) :
  NoDup (Dict.keys d) → NoDup (Dict.keys (foldl (λ d m, Dict.set d (key m) v) d l)).
Proof.
  revert d. induction l as [|m l IH]; intros d Hd; cbn [foldl]; [done|].
  by apply IH, NoDup_keys_set.
Qed.
End dict_fold_get.

Lemma extract_assets_file fs file_path content :
  Os.stat fs file_path = Some (File content) →
  extract_assets fs file_path
  = foldl (λ d directive,
             foldl (λ d m, Dict.set d (asset_full_path file_path m) directive)
                   d (findall directive content))
          [] DIRECTIVE_PATTERNS.
Proof.
  intros H. unfold extract_assets, Os.path_exists, Os.path_isfile. by rewrite H.
Qed.

Lemma extract_assets_not_file fs file_path :
  Os.path_isfile fs file_path = false → extract_assets fs file_path = [].
Proof.
  unfold extract_assets, Os.path_exists, Os.path_isfile.
  by destruct (Os.stat fs file_path) as [[|content]|].
Qed.

Lemma extract_assets_NoDup fs file_path :
  NoDup (Dict.keys (extract_assets fs file_path)).
Proof.
  destruct (Os.stat fs file_path) as [[|content]|] eqn:H.
  - rewrite extract_assets_not_file; [constructor|].
    unfold Os.path_isfile. by rewrite H.
  - rewrite (extract_assets_file _ _ _ H). unfold DIRECTIVE_PATTERNS. cbn [foldl].
    do 3 apply (foldl_set_NoDup (asset_full_path file_path)). constructor.
  - rewrite extract_assets_not_file; [constructor|].
    unfold Os.path_isfile. by rewrite H.
Qed.

Lemma extract_assets_get fs file_path content a :
  Os.stat fs file_path = Some (File content) →
  Dict.get (extract_assets fs file_path) a
  = if decide (a ∈ targets file_path "include" content) then Some "include"
    else if decide (a ∈ targets file_path "figure" content) then Some "figure"
    else if decide (a ∈ targets file_path "image" content) then Some "image"
    else None.
Proof.
  intros H. rewrite (extract_assets_file _ _ _ H). unfold DIRECTIVE_PATTERNS, targets.
  cbn [foldl]. by rewrite !(foldl_set_get (asset_full_path file_path)).
Qed.

Lemma extract_assets_directive fs file_path a d :
  Dict.get (extract_assets fs file_path) a = Some d → d ∈ DIRECTIVE_PATTERNS.
Proof.
  destruct (Os.stat fs file_path) as [[|content]|] eqn:H.
  - rewrite extract_assets_not_file; [done|]. unfold Os.path_isfile. by rewrite H.
  - rewrite (extract_assets_get _ _ _ _ H). unfold DIRECTIVE_PATTERNS.
    repeat case_decide; intros [= <-]; set_solver.
  - rewrite extract_assets_not_file; [done|]. unfold Os.path_isfile. by rewrite H.
Qed.

(** X3. The dictionary [extract_assets] returns has each path once; it is
    empty for a path that is not a regular file; and for a document it maps a
    path to the last directive, in the order image, figure, include of
    [DIRECTIVE_PATTERNS], that has an occurrence with this path: [include]
    wins over [figure], which wins over [image], and a path that no
    occurrence names is not a key. *)
Theorem extract_assets_last_directive_wins fs file_path :
  NoDup (Dict.keys (extract_assets fs file_path))
  ∧ (Os.path_isfile fs file_path = false → extract_assets fs file_path = [])
  ∧ ∀ content a,
      Os.stat fs file_path = Some (File content) →
      Dict.get (extract_assets fs file_path) a
      = if decide (a ∈ targets file_path "include" content) then Some "include"
        else if decide (a ∈ targets file_path "figure" content) then Some "figure"
        else if decide (a ∈ targets file_path "image" content) then Some "image"
        else None.
Proof.
  split_and!.
  - apply extract_assets_NoDup.
  - apply extract_assets_not_file.
  - intros content a. apply extract_assets_get.
Qed.

(** ** The index: what the expansion adds *)

Lemma record_assets_spec fs rst (items : list (string * string)) adm graph direct
    adm' graph' direct' :
  foldl (record_asset fs rst) (adm, graph, direct) items = (adm', graph', direct') →
  (∀ x y, y ∈ default [] (graph' !! x) →
     y ∈ default [] (graph !! x)
     ∨ (x = rst ∧ (y, "include") ∈ items ∧ Os.path_exists fs y = true))
  ∧ (∀ a d, adm' !! a = Some d → adm !! a = Some d ∨ (a, d) ∈ items)
  ∧ (∀ a, is_Some (adm !! a) ∨ a ∈ items.*1 → is_Some (adm' !! a)).
Proof.
  revert adm graph direct.
  induction items as [|[asset directive] items IH]; intros adm graph direct.
  - cbn. intros [= <- <- <-]. split_and!; [by left|by left|].
    by intros a [?|?%elem_of_nil].
  - cbn [foldl]. unfold record_asset at 2.
    destruct (String.eqb directive "include" && Os.path_exists fs asset) eqn:E;
      intros (Hg & Ha & Hs)%IH; (split_and!; [| |]).
    + apply andb_true_iff in E as [->%String.eqb_eq Hex].
      intros x y [Hy|(-> & Hin & Hy)]%Hg; [|right; split_and!; [done|by right|done]].
      rewrite lookup_insert in Hy. case_decide as Hx; [|by left].
      subst x. simpl in Hy.
      apply elem_of_app in Hy as [Hy| ->%list_elem_of_singleton]; [by left|].
      right. split_and!; [done|left|done].
    + intros a d [Hd|Hin]%Ha; [|right; by right].
      rewrite lookup_insert in Hd. case_decide as Hx; [|by left].
      injection Hd as <-. subst a. right. left.
    + intros a Hsome. apply Hs. rewrite lookup_insert. case_decide; [left; by eexists|].
      destruct Hsome as [?|Hin]; [by left|]. rewrite fmap_cons in Hin.
      apply elem_of_cons in Hin as [?|?]; [done|by right].
    + intros x y [Hy|(-> & Hin & Hy)]%Hg; [by left|right; split_and!; [done|by right|done]].
    + intros a d [Hd|Hin]%Ha; [|right; by right].
      rewrite lookup_insert in Hd. case_decide as Hx; [|by left].
      injection Hd as <-. subst a. right. left.
    + intros a Hsome. apply Hs. rewrite lookup_insert. case_decide; [left; by eexists|].
      destruct Hsome as [?|Hin]; [by left|]. rewrite fmap_cons in Hin.
      apply elem_of_cons in Hin as [?|?]; [done|by right].
Qed.

Lemma includes_more fs (l l' : list string) x y :
  includes fs l x y → includes fs (l ++ l') x y.
Proof. intros (? & ? & ?). split_and!; [|done..]. apply elem_of_app. by left. Qed.

Lemma first_pass_spec fs (rst_files : list string) :
  let t := foldl (first_pass_step fs) empty_tables rst_files in
  graph_ok fs rst_files t
  ∧ (∀ a d, t_asset_directive_map t !! a = Some d → d ∈ DIRECTIVE_PATTERNS)
  ∧ (∀ x s, Dict.get (t_file_to_assets t) x = Some s →
            x ∈ rst_files ∧ s = direct_assets fs x)
  ∧ (∀ x a, x ∈ rst_files → a ∈ direct_assets fs x →
            is_Some (t_asset_directive_map t !! a)).
Proof.
  induction rst_files as [|rst l IH] using rev_ind.
  - cbn zeta. cbn [foldl]. unfold graph_ok, empty_tables.
    cbn [t_include_graph t_asset_directive_map t_file_to_assets]. split_and!.
    + intros x y. rewrite lookup_empty. by intros ?%elem_of_nil.
    + intros a d. by rewrite lookup_empty.
    + done.
    + by intros x a ?%elem_of_nil.
  - cbn zeta in *. rewrite foldl_app. cbn [foldl].
    set (t := foldl (first_pass_step fs) empty_tables l) in *.
    destruct IH as (Hg & Hd & Hf & Hc).
    pose proof (first_pass_step_tables fs t rst) as [Hf2a _].
    unfold first_pass_step in *.
    destruct (foldl (record_asset fs rst) _ _) as [[adm' graph'] direct'] eqn:Hfold.
    apply record_assets_spec in Hfold as (Hg' & Ha' & Hs'). cbn in Hf2a |- *.
    rewrite Hf2a. split_and!.
    + intros x y [Hy|(-> & Hin & Hex)]%Hg'; [by apply includes_more, Hg|].
      split_and!; [apply elem_of_app; right; left| |done].
      apply elem_get_NoDup; [apply extract_assets_NoDup|done].
    + intros a d [?|Hin]%Ha'; [by eapply Hd|].
      eapply extract_assets_directive, elem_get_NoDup; [apply extract_assets_NoDup|done].
    + intros x s. destruct (decide (rst = x)) as [->|Hne].
      * rewrite get_set_same. intros [= <-]. split; [|done].
        apply elem_of_app. right. left.
      * rewrite get_set_other by done. intros [? ?]%Hf. split; [|done].
        apply elem_of_app. by left.
    + intros x a [Hx| ->%list_elem_of_singleton]%elem_of_app Ha; apply Hs'.
      * left. by eapply Hc.
      * right. by apply elem_of_list_to_set in Ha.
Qed.

Section index_sound.
Context (fs : filesystem) (rst_files : list string).

Lemma reaches_step x y a :
  includes fs rst_files x y → reaches fs rst_files y a → reaches fs rst_files x a.
Proof. intros H (D' & Hr & ?). exists D'. split; [by eapply rtc_l|done]. Qed.

Lemma process_includes_sound fuel k t r t' :
  graph_ok fs rst_files t → sound fs rst_files t →
  process_includes fuel k t = Some (r, t') →
  sound fs rst_files t' ∧ ∀ a, a ∈ r → reaches fs rst_files k a.
Proof.
  revert k t r t'. induction fuel as [|fuel IH]; intros k t r t' Hg Hs; simpl; [done|].
  case_decide as Hk.
  - intros [= <- <-]. split; [done|]. intros a. apply Hs.
  - destruct (include_loop _ _ _ _) as [[acc t2]|] eqn:Hloop; [|done].
    intros [= <- <-].
    assert (∀ (l : list string) acc0 t0 acc1 t1,
              (∀ x, x ∈ l → includes fs rst_files k x) →
              graph_ok fs rst_files t0 → sound fs rst_files t0 →
              (∀ a, a ∈ acc0 → reaches fs rst_files k a) →
              include_loop (process_includes fuel) l acc0 t0 = Some (acc1, t1) →
              sound fs rst_files t1 ∧ ∀ a, a ∈ acc1 → reaches fs rst_files k a) as Hl.
    { clear t Hg Hs Hk acc t2 Hloop.
      induction l as [|x l IHl]; intros acc0 t0 acc1 t1 Hin Hg Hs Hacc; simpl.
      - intros [= <- <-]. done.
      - assert (∀ y, y ∈ l → includes fs rst_files k y) as Hin'
          by (intros y Hy; apply Hin; by right).
        case_decide; [by apply IHl|].
        destruct (process_includes fuel x t0) as [[r1 t2]|] eqn:Hr; [|done].
        pose proof (process_includes_grows _ _ _ _ _ Hr) as Hgrow.
        destruct (IH _ _ _ _ Hg Hs Hr) as [Hs2 Hr1].
        apply IHl; [done| |done|].
        + unfold graph_ok. rewrite (grows_graph _ _ Hgrow). exact Hg.
        + intros a [Ha|Ha]%elem_of_union; [by apply Hacc|].
          eapply reaches_step; [apply Hin; left|by apply Hr1]. }
    pose proof Hloop as Hgrow. apply include_loop_grows in Hgrow as [Hgrow _];
      [|apply process_includes_grows].
    apply Hl in Hloop as [Hs2 Hacc]; [|by intros x Hx; apply Hg|done|done|by intros a; apply Hs].
    split; [|done]. intros q a. destruct (decide (k = q)) as [<-|Hne].
    + rewrite lookup_assets_store_same. apply Hacc.
    + rewrite lookup_assets_store_other by done. apply Hs2.
Qed.

Lemma second_pass_sound fuel (l : list string) t t' :
  graph_ok fs rst_files t → sound fs rst_files t →
  second_pass fuel l t = Some t' → sound fs rst_files t'.
Proof.
  revert t. induction l as [|rst l IH]; intros t Hg Hs; simpl.
  - by intros [= <-].
  - destruct (process_includes fuel rst t) as [[r t1]|] eqn:Hp; [|done].
    pose proof (process_includes_grows _ _ _ _ _ Hp) as Hgrow.
    apply process_includes_sound in Hp as [Hs1 _]; [|done..].
    apply IH; [|done]. unfold graph_ok. rewrite (grows_graph _ _ Hgrow). exact Hg.
Qed.

Lemma build_asset_index_sound fuel idx D assets a :
  build_asset_index fuel fs rst_files = Some idx →
  Dict.get (file_to_assets idx) D = Some assets → a ∈ assets →
  reaches fs rst_files D a.
Proof.
  unfold build_asset_index.
  destruct (first_pass_spec fs rst_files) as (Hg & _ & Hf & _).
  destruct (second_pass _ _ _) as [t|] eqn:Hsecond; [|done].
  intros [= <-]. simpl. intros Hget Ha.
  apply second_pass_sound in Hsecond; [| done |].
  - apply Hsecond. unfold lookup_assets. by rewrite Hget.
  - intros k b Hb. unfold lookup_assets in Hb.
    destruct (Dict.get _ k) as [s|] eqn:Hk; simpl in Hb; [|by apply elem_of_empty in Hb].
    apply Hf in Hk as [Hk ->]. exists k. done.
Qed.
End index_sound.

(** ** The index: termination, the reverse index, the labels *)

Lemma process_includes_fuel_mono fuel fuel' k t r :
  process_includes fuel k t = Some r → fuel ≤ fuel' →
  process_includes fuel' k t = Some r.
Proof.
  revert fuel' k t r. induction fuel as [|fuel IH]; intros fuel' k t r; [done|].
  intros H Hle. destruct fuel' as [|fuel']; [lia|]. cbn [process_includes] in *.
  case_decide; [done|].
  assert (∀ (l : list string) acc t0 r0,
            include_loop (process_includes fuel) l acc t0 = Some r0 →
            include_loop (process_includes fuel') l acc t0 = Some r0) as Hl.
  { induction l as [|x l IHl]; intros acc t0 r0; cbn [include_loop]; [done|].
    case_decide; [apply IHl|].
    destruct (process_includes fuel x t0) as [[r1 t1]|] eqn:Hr; [|done].
    rewrite (IH fuel' _ _ _ Hr) by lia. apply IHl. }
  destruct (include_loop (process_includes fuel) _ _ _) as [[acc t2]|] eqn:Hloop;
    [|done].
  by rewrite (Hl _ _ _ _ Hloop).
Qed.

Lemma second_pass_fuel_mono fuel fuel' (l : list string) t t' :
  second_pass fuel l t = Some t' → fuel ≤ fuel' → second_pass fuel' l t = Some t'.
Proof.
  intros H Hle. revert t H. induction l as [|rst l IH]; intros t; cbn [second_pass];
    [done|].
  destruct (process_includes fuel rst t) as [[r t1]|] eqn:Hr; [|done].
  rewrite (process_includes_fuel_mono _ _ _ _ _ Hr Hle). apply IH.
Qed.

Lemma build_asset_index_fuel_mono fuel fuel' fs rst_files idx :
  build_asset_index fuel fs rst_files = Some idx → fuel ≤ fuel' →
  build_asset_index fuel' fs rst_files = Some idx.
Proof.
  unfold build_asset_index. intros H Hle.
  destruct (second_pass fuel _ _) as [t|] eqn:Hs; [|done].
  by rewrite (second_pass_fuel_mono _ _ _ _ _ Hs Hle).
Qed.

(** X4. The include expansion ends on every include graph, cyclic or not:
    the index is built with any recursion depth from [enough_fuel] on (one
    more than the number of documents given or recorded as an include
    target), and the index does not depend on the depth allowed. *)
Theorem index_is_built_whatever_the_includes (fs : filesystem) (rst_files : list string) :
  ∃ idx,
    (∀ fuel, enough_fuel fs rst_files ≤ fuel →
             build_asset_index fuel fs rst_files = Some idx)
    ∧ ∀ fuel idx', build_asset_index fuel fs rst_files = Some idx' → idx' = idx.
Proof.
  destruct (build_asset_index_total fs rst_files (enough_fuel fs rst_files))
    as [idx Hidx]; [done|].
  exists idx. split.
  - intros fuel Hle. by eapply build_asset_index_fuel_mono.
  - intros fuel idx' H'.
    pose proof (build_asset_index_fuel_mono _ (fuel `max` enough_fuel fs rst_files)
                  _ _ _ H' ltac:(lia)) as H1.
    pose proof (build_asset_index_fuel_mono _ (fuel `max` enough_fuel fs rst_files)
                  _ _ _ Hidx ltac:(lia)) as H2.
    congruence.
Qed.

(** X5. The expansion adds nothing foreign: every asset in the set the index
    gives a document [D] is a direct reference of a document of the run that
    [D] reaches through include edges (of zero or more hops). *)
Theorem expanded_assets_come_from_included_documents
    (fuel : nat) (fs : filesystem) (rst_files : list string) (idx : index)
    (D : string) (assets : gset string) (a : string) :
  build_asset_index fuel fs rst_files = Some idx →
  Dict.get (file_to_assets idx) D = Some assets →
  a ∈ assets →
  ∃ D', rtc (includes fs rst_files) D D' ∧ D' ∈ rst_files ∧ a ∈ direct_assets fs D'.
Proof. apply build_asset_index_sound. Qed.

Lemma reaches_no_includes fs rst_files D a :
  (∀ y, ¬ includes fs rst_files D y) → reaches fs rst_files D a →
  D ∈ rst_files ∧ a ∈ direct_assets fs D.
Proof.
  intros Hno (D' & Hr & HD' & Ha).
  apply rtc_inv in Hr as [->|(y & Hy & _)]; [done|]. by destruct (Hno y).
Qed.

Lemma expanded_assets_come_from_included_documents_witness :
  ∃ D', rtc (includes include_tree ["docs/main.rst"; "docs/inc.rst"]) "docs/main.rst" D'
        ∧ D' ∈ ["docs/main.rst"; "docs/inc.rst"]
        ∧ "docs/img.png" ∈ direct_assets include_tree D'.
Proof.
  apply (expanded_assets_come_from_included_documents 3 include_tree
           ["docs/main.rst"; "docs/inc.rst"] include_index "docs/main.rst"
           {["docs/inc.rst"; "docs/img.png"]} "docs/img.png").
  - vm_compute. reflexivity.
  - vm_compute. reflexivity.
  - set_solver.
Defined.

(** X7. Every document given has an entry in [file_to_assets] that contains
    its direct references; a document without an include target on disk
    gets exactly its direct references; and a key of [file_to_assets] that
    is not one of the documents given (an include target outside the run)
    has the empty set, whatever directives that file holds. *)
Theorem document_without_includes_keeps_direct_assets
    (fuel : nat) (fs : filesystem) (rst_files : list string) (idx : index) :
  build_asset_index fuel fs rst_files = Some idx →
  (∀ D, D ∈ rst_files →
     ∃ assets, Dict.get (file_to_assets idx) D = Some assets
               ∧ direct_assets fs D ⊆ assets
               ∧ ((∀ y, ¬ includes fs rst_files D y) → assets = direct_assets fs D))
  ∧ (∀ D assets, D ∉ rst_files →
       Dict.get (file_to_assets idx) D = Some assets → assets = ∅).
Proof.
  intros Hidx. destruct (build_asset_index_facts _ _ _ _ Hidx) as (_ & _ & Hdirect).
  split.
  - intros D HD. destruct (Hdirect D HD) as (assets & Hget & Hsub).
    exists assets. split_and!; [done..|]. intros Hno.
    apply set_eq. intros a. split; [|by apply Hsub].
    intros Ha. pose proof (build_asset_index_sound _ _ _ _ _ _ _ Hidx Hget Ha) as Hr.
    by apply reaches_no_includes in Hr as [_ ?].
  - intros D assets HD Hget. apply set_eq. intros a. split; [|by intros ?%elem_of_empty].
    intros Ha. pose proof (build_asset_index_sound _ _ _ _ _ _ _ Hidx Hget Ha) as Hr.
    apply reaches_no_includes in Hr as [? _]; [done|].
    intros y (? & _). done.
Qed.

Lemma document_without_includes_keeps_direct_assets_witness :
  (∀ D, D ∈ ["docs/sub/page.rst"] →
     ∃ assets, Dict.get (file_to_assets page_index) D = Some assets
               ∧ direct_assets page_tree D ⊆ assets
               ∧ ((∀ y, ¬ includes page_tree ["docs/sub/page.rst"] D y) →
                  assets = direct_assets page_tree D))
  ∧ (∀ D assets, D ∉ ["docs/sub/page.rst"] →
       Dict.get (file_to_assets page_index) D = Some assets → assets = ∅).
Proof.
  apply (document_without_includes_keeps_direct_assets 2 page_tree
           ["docs/sub/page.rst"] page_index).
  vm_compute. reflexivity.
Defined.

(** X8. The reverse index is the inverse of [file_to_assets]: the referring
    documents of an asset are exactly the documents whose asset set
    contains it. *)
Theorem reverse_index_is_the_inverse
    (fuel : nat) (fs : filesystem) (rst_files : list string) (idx : index)
    (a D : string) :
  build_asset_index fuel fs rst_files = Some idx →
  D ∈ referring (asset_to_files idx) a
  ↔ ∃ assets, Dict.get (file_to_assets idx) D = Some assets ∧ a ∈ assets.
Proof.
  intros Hidx. destruct (build_asset_index_facts _ _ _ _ Hidx) as (Hnodup & -> & _).
  rewrite third_pass_spec. split; intros (assets & H & Ha); exists assets.
  - split; [by apply elem_get_NoDup|done].
  - split; [by apply get_Some_elem|done].
Qed.

Lemma reverse_index_is_the_inverse_witness :
  "docs/sub/page.rst" ∈ referring (asset_to_files page_index) "docs/sub/img.png"
  ↔ ∃ assets, Dict.get (file_to_assets page_index) "docs/sub/page.rst" = Some assets
              ∧ "docs/sub/img.png" ∈ assets.
Proof.
  apply (reverse_index_is_the_inverse 2 page_tree ["docs/sub/page.rst"] page_index).
  vm_compute. reflexivity.
Defined.

Lemma build_asset_index_directives fuel fs rst_files idx D assets a :
  build_asset_index fuel fs rst_files = Some idx →
  Dict.get (file_to_assets idx) D = Some assets → a ∈ assets →
  ∃ d, asset_directive_map idx !! a = Some d ∧ d ∈ DIRECTIVE_PATTERNS.
Proof.
  intros Hidx Hget Ha.
  destruct (build_asset_index_sound _ _ _ _ _ _ _ Hidx Hget Ha) as (D' & _ & HD' & Ha').
  revert Hidx. unfold build_asset_index.
  destruct (first_pass_spec fs rst_files) as (_ & Hd & _ & Hc).
  destruct (second_pass _ _ _) as [t|] eqn:Hsecond; [|done].
  intros [= <-]. simpl. apply second_pass_grows in Hsecond as Hg.
  rewrite (grows_adm _ _ Hg).
  destruct (Hc D' a HD' Ha') as [d Hsome]. exists d. split; [done|]. by eapply Hd.
Qed.

(** X9. Every asset in an asset set of the index has an entry in
    [asset_directive_map], and the entry is one of [image], [figure],
    [include]: the fallback label ["asset"] of
    [asset_directive_map.get(asset, "asset")] is never what a run over the
    index prints for a file it would delete. *)
Theorem every_asset_has_its_directive
    (fuel : nat) (fs : filesystem) (rst_files : list string) (idx : index) :
  build_asset_index fuel fs rst_files = Some idx →
  (∀ D assets a,
     Dict.get (file_to_assets idx) D = Some assets → a ∈ assets →
     ∃ d, asset_directive_map idx !! a = Some d ∧ d ∈ DIRECTIVE_PATTERNS)
  ∧ ∀ dry d p,
      Printed (WouldDeleteAsset d p)
        ∈ w_log (run (delete_unused_assets_and_pages (asset_to_files idx)
                        (file_to_assets idx) (asset_directive_map idx) dry) fs).1 →
      d ∈ DIRECTIVE_PATTERNS.
Proof.
  intros Hidx. split.
  - intros D assets a. by apply (build_asset_index_directives fuel fs rst_files).
  - intros dry d p He. apply engine_event in He. cbn in He.
    destruct He as (_ & -> & ([D assets] & Hin & _ & Hp) & _).
    destruct (build_asset_index_facts _ _ _ _ Hidx) as (Hnodup & _ & _).
    apply (elem_get_NoDup _ _ _ Hnodup) in Hin.
    destruct (build_asset_index_directives _ _ _ _ _ _ _ Hidx Hin Hp) as (d & -> & Hd).
    done.
Qed.

Lemma every_asset_has_its_directive_witness :
  (∀ D assets a,
     Dict.get (file_to_assets page_index) D = Some assets → a ∈ assets →
     ∃ d, asset_directive_map page_index !! a = Some d ∧ d ∈ DIRECTIVE_PATTERNS)
  ∧ ∀ dry d p,
      Printed (WouldDeleteAsset d p)
        ∈ w_log (run (delete_unused_assets_and_pages (asset_to_files page_index)
                        (file_to_assets page_index) (asset_directive_map page_index)
                        dry) page_tree).1 →
      d ∈ DIRECTIVE_PATTERNS.
Proof.
  apply (every_asset_has_its_directive 2 page_tree ["docs/sub/page.rst"] page_index).
  vm_compute. reflexivity.
Defined.

(** ** The index: the document processed first *)

Lemma record_assets_graph fs rst (items : list (string * string)) adm graph direct
    adm' graph' direct' :
  foldl (record_asset fs rst) (adm, graph, direct) items = (adm', graph', direct') →
  (∀ x y, edge graph x y → edge graph' x y)
  ∧ (∀ y, (y, "include") ∈ items → Os.path_exists fs y = true → edge graph' rst y).
Proof.
  revert adm graph direct.
  induction items as [|[asset directive] items IH]; intros adm graph direct.
  - cbn. intros [= <- <- <-]. split; [done|]. by intros y ?%elem_of_nil.
  - cbn [foldl]. unfold record_asset at 2.
    destruct (String.eqb directive "include" && Os.path_exists fs asset) eqn:E;
      intros [Hmono Hnew]%IH.
    + assert (∀ x y, edge graph x y →
                edge (<[rst:=default [] (graph !! rst) ++ [asset]]> graph) x y) as Hstep.
      { intros x y Hy. unfold edge. rewrite lookup_insert. case_decide as Hx; [|done].
        subst x. simpl. apply elem_of_app. by left. }
      split; [by auto|].
      intros y [?|Hin]%elem_of_cons Hex; [simplify_eq|by apply Hnew].
      apply Hmono. unfold edge. rewrite lookup_insert_eq. simpl.
      apply elem_of_app. right. left.
    + split; [done|].
      intros y [?|Hin]%elem_of_cons Hex; [simplify_eq|by apply Hnew].
      by rewrite Hex in E.
Qed.

Lemma first_pass_graph fs (rst_files : list string) x y :
  includes fs rst_files x y →
  edge (t_include_graph (foldl (first_pass_step fs) empty_tables rst_files)) x y.
Proof.
  induction rst_files as [|rst l IH] using rev_ind.
  - by intros [?%elem_of_nil _].
  - intros (Hx & Hget & Hex). rewrite foldl_app. cbn [foldl].
    set (t := foldl (first_pass_step fs) empty_tables l) in *.
    unfold first_pass_step.
    destruct (foldl (record_asset fs rst) _ _) as [[adm' graph'] direct'] eqn:Hfold.
    apply record_assets_graph in Hfold as [Hmono Hnew]. cbn [t_include_graph].
    destruct (decide (x = rst)) as [->|Hne].
    + apply Hnew; [|done]. by apply get_Some_elem.
    + apply Hmono, IH. split_and!; [|done..].
      apply elem_of_app in Hx as [?|?%list_elem_of_singleton]; done.
Qed.

Lemma visited_self t r : visited t t r.
Proof. split; intros; done. Qed.

Lemma include_loop_visited recurse (l : list string) :
  (∀ k t r t', recurse k t = Some (r, t') →
     grows t t' ∧ k ∈ t_processed t' ∧ visited t t' r) →
  ∀ acc t acc' t',
    include_loop recurse l acc t = Some (acc', t') →
    (∀ x, x ∈ l → x ∈ t_processed t') ∧ visited t t' acc'.
Proof.
  intros Hrec. induction l as [|c l IH]; intros acc t acc' t'; cbn [include_loop].
  - intros [= <- <-]. split; [by intros x ?%elem_of_nil|apply visited_self].
  - case_decide as Hc.
    + intros Hloop. pose proof Hloop as [Hg _]%include_loop_grows;
        [|intros ????; by intros (? & _)%Hrec].
      apply IH in Hloop as [Hl Hv]. split; [|done].
      intros x [->|?]%elem_of_cons; [|by apply Hl].
      by apply (grows_processed _ _ Hg).
    + destruct (recurse c t) as [[r1 t1]|] eqn:Hr; [|done].
      apply Hrec in Hr as (Hg1 & Hc1 & [Hclosed1 Hsub1]).
      intros Hloop. pose proof Hloop as [Hg Hacc]%include_loop_grows;
        [|intros ????; by intros (? & _)%Hrec].
      apply IH in Hloop as [Hl [Hclosed Hsub]]. split.
      * intros x [->|?]%elem_of_cons; [|by apply Hl].
        by apply (grows_processed _ _ Hg).
      * rewrite (grows_graph _ _ Hg1) in Hclosed. split.
        -- intros x y Hx Hnew Hxy.
           destruct (decide (x ∈ t_processed t1)) as [Hx1|Hx1].
           ++ apply (grows_processed _ _ Hg). by eapply Hclosed1.
           ++ by eapply Hclosed.
        -- intros x Hx Hnew.
           destruct (decide (x ∈ t_processed t1)) as [Hx1|Hx1].
           ++ etrans; [by apply Hsub1|]. etrans; [|exact Hacc]. apply union_subseteq_r.
           ++ etrans; [apply (grows_assets _ _ Hg1)|]. by apply Hsub.
Qed.

Lemma process_includes_visited fuel k t r t' :
  process_includes fuel k t = Some (r, t') →
  grows t t' ∧ k ∈ t_processed t' ∧ visited t t' r.
Proof.
  revert k t r t'. induction fuel as [|fuel IH]; intros k t r t' Hrun; [done|].
  split; [by eapply process_includes_grows|]. revert Hrun. cbn [process_includes].
  case_decide as Hk.
  - intros [= <- <-]. split; [done|apply visited_self].
  - destruct (include_loop _ _ _ _) as [[acc t2]|] eqn:Hloop; [|done].
    intros [= <- <-]. cbn [store_assets t_processed].
    pose proof Hloop as [Hg Hacc]%include_loop_grows; [|apply process_includes_grows].
    apply include_loop_visited in Hloop as [Hl [Hclosed Hsub]]; [|exact IH].
    cbn [mark_processed t_processed t_include_graph] in *.
    assert (k ∈ t_processed t2) as Hk2.
    { apply (grows_processed _ _ Hg). cbn. set_solver. }
    split; [done|]. split.
    + intros x y Hx Hnew Hxy. destruct (decide (x = k)) as [->|Hne].
      * by apply Hl.
      * eapply Hclosed; [done| |done]. set_solver.
    + intros x Hx Hnew. destruct (decide (x = k)) as [->|Hne]; [done|].
      apply Hsub; [done|]. set_solver.
Qed.

Lemma visited_reachable t t' r k x :
  t_processed t = ∅ → visited t t' r → k ∈ t_processed t' →
  rtc (edge (t_include_graph t)) k x →
  x ∈ t_processed t' ∧ lookup_assets t x ⊆ r.
Proof.
  intros Hempty [Hclosed Hsub] Hk Hreach.
  assert (x ∈ t_processed t') as Hx.
  { induction Hreach as [|x y z Hxy _ IH]; [done|].
    apply IH. eapply Hclosed; [done| |done]. rewrite Hempty. set_solver. }
  split; [done|]. apply Hsub; [done|]. rewrite Hempty. set_solver.
Qed.

Lemma second_pass_first fuel rst (rest : list string) t t' :
  second_pass fuel (rst :: rest) t = Some t' →
  ∃ r t1, process_includes fuel rst t = Some (r, t1)
          ∧ Dict.get (t_file_to_assets t') rst = Dict.get (t_file_to_assets t1) rst.
Proof.
  cbn [second_pass].
  destruct (process_includes fuel rst t) as [[r t1]|] eqn:Hp; [|done].
  intros Hrest. exists r, t1. split; [done|].
  apply second_pass_grows in Hrest. apply (grows_frame _ _ Hrest).
  by apply process_includes_visited in Hp as (_ & ? & _).
Qed.

Lemma process_includes_stored fuel k t r t' :
  process_includes fuel k t = Some (r, t') → k ∉ t_processed t →
  Dict.get (t_file_to_assets t') k = Some r.
Proof.
  destruct fuel as [|fuel]; [done|]. cbn [process_includes].
  case_decide; [done|].
  destruct (include_loop _ _ _ _) as [[acc t2]|]; [|done].
  intros [= <- <-] _. cbn. apply get_set_same.
Qed.

(** X6. For the document that is processed first the expansion is exact: its
    asset set in the index is the set of the direct references of the
    documents of the run that it reaches through include edges. *)
Theorem first_document_gets_every_transitive_asset
    (fuel : nat) (fs : filesystem) (D : string) (rest : list string) (idx : index)
    (assets : gset string) :
  build_asset_index fuel fs (D :: rest) = Some idx →
  Dict.get (file_to_assets idx) D = Some assets →
  ∀ a, a ∈ assets
       ↔ ∃ D', rtc (includes fs (D :: rest)) D D' ∧ D' ∈ D :: rest
               ∧ a ∈ direct_assets fs D'.
Proof.
  intros Hidx Hget a. split; [by eapply build_asset_index_sound|].
  intros (D' & Hreach & HD' & Ha). revert Hidx Hget. unfold build_asset_index.
  destruct (first_pass_tables fs (D :: rest) empty_tables) as (Hp & _ & Hdirect).
  set (t := foldl (first_pass_step fs) empty_tables (D :: rest)) in *.
  destruct (second_pass _ _ _) as [t'|] eqn:Hsecond; [|done].
  intros [= <-]. cbn [file_to_assets].
  apply second_pass_first in Hsecond as (r & t1 & Hrun & ->).
  rewrite (process_includes_stored _ _ _ _ _ Hrun) by (rewrite Hp; set_solver).
  intros [= <-].
  apply process_includes_visited in Hrun as (_ & Hk & Hv).
  assert (rtc (edge (t_include_graph t)) D D') as Hreach'.
  { eapply rtc_subrel; [|done]. intros x y. apply first_pass_graph. }
  destruct (visited_reachable _ _ _ _ _ Hp Hv Hk Hreach') as [_ Hsub].
  apply Hsub. unfold lookup_assets. by rewrite (Hdirect D' HD').
Qed.

Lemma first_document_gets_every_transitive_asset_witness :
  "docs/img.png" ∈ ({["docs/inc.rst"; "docs/img.png"]} : gset string)
  ↔ ∃ D', rtc (includes include_tree ["docs/main.rst"; "docs/inc.rst"])
              "docs/main.rst" D'
          ∧ D' ∈ ["docs/main.rst"; "docs/inc.rst"]
          ∧ "docs/img.png" ∈ direct_assets include_tree D'.
Proof.
  apply (first_document_gets_every_transitive_asset 3 include_tree "docs/main.rst"
           ["docs/inc.rst"] include_index); vm_compute; reflexivity.
Defined.

(** ** The deletion engine: how it ends and what it returns *)

Lemma stat_replay fs log q n :
  Os.stat (replay fs log) q = Some n → Os.stat fs q = Some n.
Proof.
  induction log as [|e log IH] using rev_ind; [done|].
  rewrite replay_snoc. destruct e as [s p|m]; simpl; [|done].
  rewrite stat_unlink. by destruct (String.eqb _ _).
Qed.

Section engine_rule.
Context (a2f : gmap string (gset string)) (f2a : list (string * gset string))
        (adm : gmap string string) (dry : bool)
        (J : deleted → world → Prop) (X : option exn → world → Prop).
Hypothesis J_print : ∀ d w m p,
  J d w → dry = true → candidate a2f f2a p → Os.path_exists (w_fs w) p = true →
  J d (snoc_event w (Printed m)).
Hypothesis J_asset : ∀ d w p,
  J d w → dry = false → asset_candidate a2f f2a p →
  Os.path_isfile (w_fs w) p = true →
  J {| deleted_pages := deleted_pages d;
       deleted_assets := deleted_assets d ++ [p];
       affected_dirs := affected_dirs d ∪ {[OsPath.dirname p]} |}
    (snoc_event w (Removed AssetSite p)).
Hypothesis J_page : ∀ d w p,
  J d w → dry = false → page_candidate a2f f2a p →
  Os.path_isfile (w_fs w) p = true →
  J {| deleted_pages := deleted_pages d ++ [p];
       deleted_assets := deleted_assets d;
       affected_dirs := affected_dirs d ∪ {[OsPath.dirname p]} |}
    (snoc_event w (Removed PageSite p)).
Hypothesis X_raise : ∀ d w p e,
  J d w → dry = false → candidate a2f f2a p → Os.path_exists (w_fs w) p = true →
  Os.remove (w_fs w) p = inl e → X (Some e) w.

Lemma remove_asset_rule asset d w :
  J d w → asset_candidate a2f f2a asset →
  ends (remove_asset adm dry asset d w) J X.
Proof.
  intros HJ Hc. unfold remove_asset. apply ends_bind, ends_read.
  destruct (Os.path_exists (w_fs w) asset) eqn:Hex; [|by apply ends_ret].
  destruct dry eqn:Hdry.
  - apply ends_bind, ends_print, ends_ret.
    apply (J_print _ _ _ asset); [done|done|by left|done].
  - apply ends_bind, ends_remove.
    + intros Hfile. apply ends_ret. by apply J_asset.
    + intros e He. apply (X_raise d w asset); [done|done|by left|done|done].
Qed.

Lemma remove_page_rule rst_file d w :
  J d w → page_candidate a2f f2a rst_file →
  ends (remove_page dry rst_file d w) J X.
Proof.
  intros HJ Hc. unfold remove_page. apply ends_bind, ends_read.
  destruct (Os.path_exists (w_fs w) rst_file) eqn:Hex; [|by apply ends_ret].
  destruct dry eqn:Hdry.
  - apply ends_bind, ends_print, ends_ret.
    apply (J_print _ _ _ rst_file); [done|done|by right|done].
  - apply ends_bind, ends_remove.
    + intros Hfile. apply ends_ret. by apply J_page.
    + intros e He. apply (X_raise d w rst_file); [done|done|by right|done|done].
Qed.

Lemma delete_step_rule item d w :
  J d w → item ∈ f2a → ends (delete_step a2f adm dry item d w) J X.
Proof.
  intros HJ Hin. destruct item as [rst_file assets]. unfold delete_step.
  destruct (decide (assets = ∅)) as [->|Hne]; [by apply ends_ret|].
  destruct (all_unique a2f (elements assets)) eqn:Hu; [|by apply ends_ret].
  assert (qualifies a2f (rst_file, assets)) as Hq.
  { split; [done|]. intros a Ha. rewrite all_unique_spec in Hu.
    apply Hu. by apply elem_of_elements. }
  apply ends_bind.
  eapply ends_mono; [apply (ends_for_each (λ _ d' w', J d' w') X)| |done].
  - done.
  - intros done a rest d1 w1 Hsplit HJ1.
    apply remove_asset_rule; [exact HJ1|].
    exists (rst_file, assets). split_and!; [done..|]. cbn [snd].
    apply elem_of_elements. rewrite Hsplit. apply elem_of_app. right. left.
  - intros d1 w1 HJ1. apply remove_page_rule; [exact HJ1|]. by exists assets.
Qed.

(** Whatever holds at the start of the engine and is kept by each of its
    three effects holds when it returns. *)
Lemma engine_rule w :
  J no_deletions w →
  ends (delete_unused_assets_and_pages a2f f2a adm dry w) J X.
Proof.
  intros HJ. unfold delete_unused_assets_and_pages.
  eapply ends_mono; [apply (ends_for_each (λ _ d' w', J d' w') X)| |done].
  - exact HJ.
  - intros done item rest d1 w1 Hsplit HJ1.
    apply delete_step_rule; [exact HJ1|].
    rewrite Hsplit. apply elem_of_app. right. left.
  - done.
Qed.
End engine_rule.

Lemma remove_inl_isdir fs p e :
  Os.remove fs p = inl e → Os.path_exists fs p = true → Os.path_isdir fs p = true.
Proof.
  unfold Os.remove, Os.path_exists, Os.path_isdir. by repeat case_match.
Qed.

Lemma path_isdir_replay fs log p :
  Os.path_isdir (replay fs log) p = true → Os.path_isdir fs p = true.
Proof.
  unfold Os.path_isdir. destruct (Os.stat (replay fs log) p) as [[|c]|] eqn:H; [|done..].
  by rewrite (stat_replay _ _ _ _ H).
Qed.

Lemma path_isfile_replay fs log p :
  Os.path_isfile (replay fs log) p = true → Os.path_isfile fs p = true.
Proof.
  unfold Os.path_isfile. destruct (Os.stat (replay fs log) p) as [[|c]|] eqn:H; [done| |done].
  by rewrite (stat_replay _ _ _ _ H).
Qed.

Lemma path_isfile_exists fs p : Os.path_isfile fs p = true → Os.path_exists fs p = true.
Proof. unfold Os.path_isfile, Os.path_exists. by repeat case_match. Qed.

(** X10. The engine returns (it neither raises nor fails to end) whenever
    none of the files it is after, the qualifying documents and their assets,
    is a directory on the disk it starts from; [os.remove] raising on a
    directory is the one way it is cut short. *)
Theorem engine_completes_unless_an_asset_is_a_directory
    (a2f : gmap string (gset string)) (f2a : list (string * gset string))
    (adm : gmap string string) (dry : bool) (fs0 : filesystem) :
  (∀ p, candidate a2f f2a p → Os.path_isdir fs0 p = false) →
  ∃ d, (run (delete_unused_assets_and_pages a2f f2a adm dry) fs0).2 = Done d.
Proof.
  intros Hfiles.
  assert (ends (run (delete_unused_assets_and_pages a2f f2a adm dry) fs0)
            (λ _ w, w_fs w = replay fs0 (w_log w)) (λ _ _, False)) as H.
  { apply engine_rule.
    - intros d w m p Htr _ _ _. simpl. by rewrite replay_snoc, <-Htr.
    - intros d w p Htr _ _ _. simpl. by rewrite replay_snoc, <-Htr.
    - intros d w p Htr _ _ _. simpl. by rewrite replay_snoc, <-Htr.
    - intros d w p e Htr _ Hc Hex He. apply remove_inl_isdir in He; [|done].
      rewrite Htr in He. apply path_isdir_replay in He.
      by rewrite (Hfiles p Hc) in He.
    - done. }
  destruct (run _ _) as [w [d|e|]]; [by exists d|done..].
Qed.

Lemma engine_completes_unless_an_asset_is_a_directory_witness :
  ∃ d, (run (delete_unused_assets_and_pages (asset_to_files page_index)
               (file_to_assets page_index) (asset_directive_map page_index) false)
          page_tree).2 = Done d.
Proof.
  apply (engine_completes_unless_an_asset_is_a_directory (asset_to_files page_index)
           (file_to_assets page_index) (asset_directive_map page_index) false
           page_tree).
  intros p [(item & Hin & _ & Hp)|(assets & Hin & _)]; cbn in Hin.
  - apply list_elem_of_singleton in Hin as ->. cbn in Hp.
    apply elem_of_singleton in Hp as ->. reflexivity.
  - apply list_elem_of_singleton in Hin. injection Hin as -> _. reflexivity.
Defined.

Lemma dirs_of_removed log :
  dirs_of log = list_to_set (OsPath.dirname <$> removed_files log).
Proof.
  unfold dirs_of, removed_files, assets_of, pages_of. apply set_eq. intros x.
  rewrite !elem_of_list_to_set, list_elem_of_fmap, list_elem_of_omap.
  setoid_rewrite elem_of_app. setoid_rewrite list_elem_of_omap. split.
  - intros (e & He & Hx). destruct e as [[] p|]; simplify_eq.
    + exists p. split; [done|]. left. by exists (Removed AssetSite p).
    + exists p. split; [done|]. right. by exists (Removed PageSite p).
  - intros (p & -> & [(e & He & Hs)|(e & He & Hs)]); destruct e as [[] q|];
      simplify_eq; by eexists (Removed _ p).
Qed.

Lemma removed_files_print log m : removed_files (log ++ [Printed m]) = removed_files log.
Proof.
  unfold removed_files, assets_of, pages_of. rewrite !omap_app. simpl.
  by rewrite !app_nil_r.
Qed.

Lemma removed_files_asset log p :
  removed_files (log ++ [Removed AssetSite p]) ≡ₚ p :: removed_files log.
Proof.
  unfold removed_files, assets_of, pages_of. rewrite !omap_app. simpl.
  rewrite app_nil_r. by rewrite <-Permutation_middle, app_nil_r.
Qed.

Lemma removed_files_page log p :
  removed_files (log ++ [Removed PageSite p]) ≡ₚ p :: removed_files log.
Proof.
  unfold removed_files, assets_of, pages_of. rewrite !omap_app. simpl.
  rewrite app_nil_r, app_assoc. by rewrite <-Permutation_cons_append.
Qed.

Lemma removals_ok_remove dry fs0 d d' w s p :
  removals_ok dry fs0 d w → dry = false →
  Os.path_isfile (w_fs w) p = true →
  acc_ok d' (snoc_event w (Removed s p)) →
  removed_files (w_log w ++ [Removed s p]) ≡ₚ p :: removed_files (w_log w) →
  removals_ok dry fs0 d' (snoc_event w (Removed s p)).
Proof.
  intros (Hacc & Htr & Hnd & Hgone & Hdry) Hreal Hfile Hacc' Hperm.
  split_and!; simpl.
  - done.
  - by rewrite replay_snoc, <-Htr.
  - rewrite Hperm. apply NoDup_cons. split; [|done].
    intros [_ Hp]%Hgone. apply path_isfile_exists in Hfile. congruence.
  - intros q. rewrite Hperm, path_exists_unlink.
    intros [->|Hq]%elem_of_cons.
    + split; [|by rewrite String.eqb_refl, andb_false_r].
      rewrite Htr in Hfile. by apply path_isfile_replay in Hfile.
    + destruct (Hgone q Hq) as [? ->]. done.
  - congruence.
Qed.

Lemma engine_removals_ok a2f f2a adm dry fs0 :
  ends (run (delete_unused_assets_and_pages a2f f2a adm dry) fs0)
    (removals_ok dry fs0) (λ _ _, True).
Proof.
  apply engine_rule.
  - intros d w m p (Hacc & Htr & Hnd & Hgone & Hdry) _ _ _.
    split_and!; simpl; rewrite ?removed_files_print; try done.
    + by apply acc_ok_print.
    + by rewrite replay_snoc, <-Htr.
  - intros d w p H Hreal _ Hfile.
    eapply removals_ok_remove; [done..| |apply removed_files_asset].
    apply acc_ok_remove_asset, H.
  - intros d w p H Hreal _ Hfile.
    eapply removals_ok_remove; [done..| |apply removed_files_page].
    apply acc_ok_remove_page, H.
  - done.
  - split_and!; try done.
    + constructor.
    + by intros p ?%elem_of_nil.
Qed.

(** X11. What the engine returns is what it did: [deleted_assets] and
    [deleted_pages] are the files it removed, in the order of removal;
    [affected_dirs] is the set of their parent directories; no path is
    listed twice; each listed path was a regular file before the run and is
    gone after it; and a dry run returns two empty lists and the empty set. *)
Theorem engine_returns_what_it_removed
    (a2f : gmap string (gset string)) (f2a : list (string * gset string))
    (adm : gmap string string) (dry : bool) (fs0 : filesystem) (d : deleted) :
  let r := run (delete_unused_assets_and_pages a2f f2a adm dry) fs0 in
  r.2 = Done d →
  deleted_assets d = assets_of (w_log r.1)
  ∧ deleted_pages d = pages_of (w_log r.1)
  ∧ affected_dirs d
    = list_to_set (OsPath.dirname <$> deleted_assets d ++ deleted_pages d)
  ∧ NoDup (deleted_assets d ++ deleted_pages d)
  ∧ (∀ p, p ∈ deleted_assets d ++ deleted_pages d →
       Os.path_isfile fs0 p = true ∧ Os.path_exists (w_fs r.1) p = false)
  ∧ (dry = true → d = no_deletions).
Proof.
  intros r Hd. pose proof (engine_removals_ok a2f f2a adm dry fs0) as H.
  fold r in H. destruct r as [w [d'|e|]]; simpl in *; [|done..].
  injection Hd as ->.
  destruct H as ((Hp & Ha & Hdirs) & _ & Hnd & Hgone & Hdry).
  rewrite Hdirs, dirs_of_removed, Ha, Hp. done.
Qed.

Lemma engine_returns_what_it_removed_witness :
  let d := {| deleted_pages := ["docs/sub/page.rst"];
              deleted_assets := ["docs/sub/img.png"];
              affected_dirs := {["docs/sub"]} |} in
  let r := run (delete_unused_assets_and_pages (asset_to_files page_index)
                  (file_to_assets page_index) (asset_directive_map page_index) false)
             page_tree in
  deleted_assets d = assets_of (w_log r.1)
  ∧ deleted_pages d = pages_of (w_log r.1)
  ∧ affected_dirs d
    = list_to_set (OsPath.dirname <$> deleted_assets d ++ deleted_pages d)
  ∧ NoDup (deleted_assets d ++ deleted_pages d)
  ∧ (∀ p, p ∈ deleted_assets d ++ deleted_pages d →
       Os.path_isfile page_tree p = true ∧ Os.path_exists (w_fs r.1) p = false)
  ∧ (false = true → d = no_deletions).
Proof.
  apply (engine_returns_what_it_removed (asset_to_files page_index)
           (file_to_assets page_index) (asset_directive_map page_index) false
           page_tree).
  vm_compute. reflexivity.
Defined.

Lemma engine_nothing_to_do a2f f2a adm dry fs :
  (∀ p, candidate a2f f2a p → Os.path_exists fs p = false) →
  run (delete_unused_assets_and_pages a2f f2a adm dry) fs
  = ({| w_fs := fs; w_log := [] |}, Done no_deletions).
Proof.
  intros Hgone.
  assert (ends (run (delete_unused_assets_and_pages a2f f2a adm dry) fs)
            (λ d w, d = no_deletions ∧ w = {| w_fs := fs; w_log := [] |})
            (λ _ _, False)) as H.
  { apply engine_rule.
    - intros d w m p [_ ->] _ Hc Hex. simpl in Hex. by rewrite Hgone in Hex.
    - intros d w p [_ ->] _ Hc Hex%path_isfile_exists. simpl in Hex.
      rewrite Hgone in Hex; [done|by left].
    - intros d w p [_ ->] _ Hc Hex%path_isfile_exists. simpl in Hex.
      rewrite Hgone in Hex; [done|by right].
    - intros d w p e [_ ->] _ Hc Hex. simpl in Hex. by rewrite Hgone in Hex.
    - done. }
  destruct (run _ _) as [w [d|e|]]; simpl in H; [|done..]. by destruct H as [-> ->].
Qed.

(** X12. Once a real run of the engine has returned, a second run of the
    engine over the same index, on the disk the first one left, does
    nothing: it removes nothing, prints nothing and returns empty results. *)
Theorem engine_is_idempotent_on_its_index
    (a2f : gmap string (gset string)) (f2a : list (string * gset string))
    (adm : gmap string string) (dry : bool) (fs0 : filesystem) (d : deleted) :
  let first := run (delete_unused_assets_and_pages a2f f2a adm false) fs0 in
  first.2 = Done d →
  run (delete_unused_assets_and_pages a2f f2a adm dry) (w_fs first.1)
  = ({| w_fs := w_fs first.1; w_log := [] |}, Done no_deletions).
Proof.
  intros first Hd. apply engine_nothing_to_do. intros p Hc.
  destruct (engine_done _ _ _ _ _ _ Hd) as [_ Hall].
  apply (candidate_settled _ _ _ _ _ _ Hall Hc).
Qed.

Lemma engine_is_idempotent_on_its_index_witness :
  run (delete_unused_assets_and_pages (asset_to_files page_index)
         (file_to_assets page_index) (asset_directive_map page_index) false)
    (w_fs (run (delete_unused_assets_and_pages (asset_to_files page_index)
                  (file_to_assets page_index) (asset_directive_map page_index) false)
             page_tree).1)
  = ({| w_fs := w_fs (run (delete_unused_assets_and_pages (asset_to_files page_index)
                             (file_to_assets page_index)
                             (asset_directive_map page_index) false) page_tree).1;
        w_log := [] |}, Done no_deletions).
Proof.
  apply (engine_is_idempotent_on_its_index (asset_to_files page_index)
           (file_to_assets page_index) (asset_directive_map page_index) false
           page_tree
           {| deleted_pages := ["docs/sub/page.rst"];
              deleted_assets := ["docs/sub/img.png"];
              affected_dirs := {["docs/sub"]} |}).
  vm_compute. reflexivity.
Defined.

(** ** The directory pruner: what it does step by step *)

Lemma path_isdir_exists fs p : Os.path_isdir fs p = true → Os.path_exists fs p = true.
Proof. unfold Os.path_isdir, Os.path_exists. by repeat case_match. Qed.

Lemma rmdir_empty fs p :
  is_empty_dir fs p = true → Os.rmdir fs p = inr (Os.unlink fs p).
Proof.
  unfold is_empty_dir, Os.rmdir, Os.path_isdir.
  intros [Hd Hl%bool_decide_eq_true]%andb_true_iff. rewrite Hl.
  by repeat case_match.
Qed.

Lemma prune_step_eq dry p dd w :
  prune_step dry p dd w
  = if is_empty_dir (w_fs w) p then
      if dry then (snoc_event w (would_delete_dir p), Done dd)
      else (snoc_event w (Removed DirSite p), Done (dd ++ [p]))
    else (w, Done dd).
Proof.
  unfold prune_step, mbind, M_bind, read_fs.
  destruct (is_empty_dir (w_fs w) p) eqn:E.
  - pose proof (rmdir_empty _ _ E) as Hrm.
    apply andb_true_iff in E as [Hd Hl%bool_decide_eq_true].
    cbn beta. rewrite Hd, (path_isdir_exists _ _ Hd). cbn [andb negb]. rewrite Hl.
    destruct dry; [done|]. unfold syscall. by rewrite Hrm.
  - apply andb_false_iff in E as [Hd|Hl%bool_decide_eq_false].
    + cbn beta. rewrite Hd, andb_false_r. done.
    + cbn beta. destruct (Os.path_exists _ _ && Os.path_isdir _ _); cbn [negb]; [|done].
      by destruct (Os.listdir (w_fs w) p).
Qed.

Lemma prune_root_eq dry p dd w :
  prune_root dry p dd w
  = if is_empty_dir (w_fs w) p then
      if dry then (snoc_event w (would_delete_dir p), Done dd)
      else (snoc_event w (Removed RootSite p), Done (dd ++ [p]))
    else (w, Done dd).
Proof.
  unfold prune_root, mbind, M_bind, read_fs.
  destruct (is_empty_dir (w_fs w) p) eqn:E.
  - pose proof (rmdir_empty _ _ E) as Hrm.
    apply andb_true_iff in E as [Hd Hl%bool_decide_eq_true].
    cbn beta. rewrite Hd, Hl. destruct dry; [done|]. unfold syscall. by rewrite Hrm.
  - apply andb_false_iff in E as [Hd|Hl%bool_decide_eq_false].
    + cbn beta. by rewrite Hd.
    + cbn beta. destruct (Os.path_isdir _ _); [|done].
      by destruct (Os.listdir (w_fs w) p).
Qed.

(** The pass of a dry run reports the candidates that are empty directories,
    in the order of the pass, and changes nothing. *)
Lemma prune_pass_dry (l : list string) dd w :
  for_each l (prune_step true) dd w
  = ({| w_fs := w_fs w;
        w_log := w_log w
                 ++ map would_delete_dir (List.filter (is_empty_dir (w_fs w)) l) |},
     Done dd).
Proof.
  revert w. induction l as [|p l IH]; intros w; cbn [for_each List.filter map].
  - rewrite app_nil_r. by destruct w.
  - unfold mbind, M_bind. rewrite prune_step_eq.
    destruct (is_empty_dir (w_fs w) p); rewrite IH; [|done].
    cbn [map snoc_event apply_event would_delete_dir w_fs w_log].
    by rewrite <-app_assoc.
Qed.

(** The pass of a real run removes some of the candidates, in the order of
    the pass. *)
Lemma prune_pass_real (l : list string) dd w :
  ∃ pass,
    for_each l (prune_step false) dd w
    = ({| w_fs := replay (w_fs w) (Removed DirSite <$> pass);
          w_log := w_log w ++ (Removed DirSite <$> pass) |}, Done (dd ++ pass))
    ∧ pass `sublist_of` l.
Proof.
  revert dd w. induction l as [|p l IH]; intros dd w; cbn [for_each].
  - exists []. rewrite !app_nil_r. split; [by destruct w|done].
  - unfold mbind, M_bind. rewrite prune_step_eq.
    destruct (is_empty_dir (w_fs w) p).
    + destruct (IH (dd ++ [p]) (snoc_event w (Removed DirSite p))) as (pass & -> & Hsub).
      exists (p :: pass). split; [|by apply sublist_skip].
      rewrite fmap_cons. cbn [snoc_event apply_event w_fs w_log replay foldl].
      by rewrite <-!app_assoc.
    + destruct (IH dd w) as (pass & -> & Hsub).
      exists pass. split; [done|by apply sublist_cons].
Qed.

Lemma StronglySorted_sublist {A} (R : relation A) (l1 l2 : list A) :
  l1 `sublist_of` l2 → StronglySorted R l2 → StronglySorted R l1.
Proof.
  induction 1 as [|x l1 l2 Hsub IH|x l1 l2 Hsub IH]; intros Hs.
  - constructor.
  - apply StronglySorted_inv in Hs as [Hs Hall]. constructor; [by apply IH|].
    rewrite Forall_forall in Hall |- *. intros y Hy. apply Hall.
    by eapply sublist_subseteq.
  - apply StronglySorted_inv in Hs as [Hs _]. by apply IH.
Qed.

Lemma climb_result fuel original_path parent (acc : gset string) w w' acc' :
  climb fuel original_path parent acc w = (w', Done acc') →
  acc ⊆ acc'
  ∧ ∀ p, p ∈ acc' →
      p ∈ acc
      ∨ (p ≠ original_path ∧ Os.path_exists (w_fs w) p = true
         ∧ ∃ k, Nat.iter k OsPath.dirname parent = p).
Proof.
  revert parent acc. induction fuel as [|fuel IH]; intros parent acc; [done|].
  cbn [climb]. unfold mbind, M_bind, read_fs.
  destruct (Str.truthy parent && Os.path_exists (w_fs w) parent
            && negb (String.eqb parent original_path)) eqn:Hguard.
  - apply andb_true_iff in Hguard as [[_ Hex]%andb_true_iff Hne%negb_true_iff].
    apply String.eqb_neq in Hne.
    intros [Hsub Hall]%IH. split; [set_solver|].
    intros p [[Hp| ->%elem_of_singleton]%elem_of_union|(? & ? & k & Hk)]%Hall.
    + by left.
    + right. split_and!; [done..|]. by exists 0.
    + right. split_and!; [done..|]. exists (S k). by rewrite Nat.iter_succ_r.
  - intros [= <- <-]. split; [done|]. by left.
Qed.

Lemma expand_dirs_result fuel (dirs : gset string) original_path w w' all_dirs :
  expand_dirs fuel dirs original_path w = (w', Done all_dirs) →
  w' = w ∧ dirs ⊆ all_dirs
  ∧ ∀ p, p ∈ all_dirs → pass_candidate (w_fs w) dirs original_path p.
Proof.
  unfold expand_dirs.
  assert (∀ (l : list string) (acc : gset string) acc',
            (∀ d, d ∈ l → d ∈ dirs) →
            for_each l (λ dir_path all_dirs,
                          climb fuel original_path (OsPath.dirname dir_path) all_dirs)
              acc w = (w', Done acc') →
            w' = w ∧ acc ⊆ acc'
            ∧ ∀ p, p ∈ acc' → p ∈ acc
                   ∨ (p ≠ original_path ∧ Os.path_exists (w_fs w) p = true
                      ∧ ∃ d, d ∈ dirs ∧ above d p)) as Hl.
  { induction l as [|d l IHl]; intros acc acc' Hin; cbn [for_each].
    - intros [= <- <-]. split_and!; [done..|]. by left.
    - unfold mbind, M_bind.
      pose proof (climb_ends fuel original_path (OsPath.dirname d) acc w) as Hw.
      destruct (climb _ _ _ _ _) as [w1 [acc1|e|]] eqn:Hclimb; [|done..].
      simpl in Hw. subst w1. apply climb_result in Hclimb as [Hsub Hall].
      intros (-> & Hsub' & Hall')%IHl; [|intros d' Hd'; apply Hin; by right].
      split_and!; [done|set_solver|].
      intros p [[?|(? & ? & k & Hk)]%Hall|?]%Hall'; [by left|right..|by right].
      split_and!; [done..|]. exists d. split; [apply Hin; left|].
      exists k. by rewrite Nat.iter_succ_r. }
  intros (-> & Hsub & Hall)%Hl; [|by intros d ?%elem_of_elements].
  split_and!; [done..|]. intros p [?|?]%Hall; [by left|by right].
Qed.

Lemma remove_empty_dirs_real fuel (dirs : gset string) original_path w w' dd :
  remove_empty_dirs fuel dirs original_path false w = (w', Done dd) →
  ∃ all_dirs pass last,
    dirs ⊆ all_dirs
    ∧ (∀ p, p ∈ all_dirs → pass_candidate (w_fs w) dirs original_path p)
    ∧ pass `sublist_of` sorted_dirs all_dirs
    ∧ (last = [] ∨ last = [original_path])
    ∧ dd = pass ++ last
    ∧ w_log w' = w_log w ++ (Removed DirSite <$> pass) ++ (Removed RootSite <$> last).
Proof.
  unfold remove_empty_dirs, mbind, M_bind.
  destruct (expand_dirs _ _ _ _) as [w1 [all_dirs|e|]] eqn:He; [|done..].
  apply expand_dirs_result in He as (-> & Hsub & Hall).
  destruct (prune_pass_real (sorted_dirs all_dirs) [] w) as (pass & -> & Hpass).
  rewrite prune_root_eq. cbn [app].
  destruct (is_empty_dir _ _); intros [= <- <-]; exists all_dirs, pass.
  - exists [original_path]. split_and!; [done..|by right|done|].
    cbn [snoc_event w_log]. by rewrite <-app_assoc.
  - exists []. split_and!; [done..|by left|by rewrite app_nil_r|].
    cbn [w_log fmap list_fmap]. by rewrite app_nil_r.
Qed.

Lemma remove_empty_dirs_dry fuel (dirs : gset string) original_path w w' dd :
  remove_empty_dirs fuel dirs original_path true w = (w', Done dd) →
  ∃ all_dirs,
    dirs ⊆ all_dirs
    ∧ (∀ p, p ∈ all_dirs → pass_candidate (w_fs w) dirs original_path p)
    ∧ dd = []
    ∧ w_fs w' = w_fs w
    ∧ w_log w'
      = w_log w
        ++ map would_delete_dir (List.filter (is_empty_dir (w_fs w)) (sorted_dirs all_dirs))
        ++ (if is_empty_dir (w_fs w) original_path
            then [would_delete_dir original_path] else []).
Proof.
  unfold remove_empty_dirs, mbind, M_bind.
  destruct (expand_dirs _ _ _ _) as [w1 [all_dirs|e|]] eqn:He; [|done..].
  apply expand_dirs_result in He as (-> & Hsub & Hall).
  rewrite prune_pass_dry, prune_root_eq. cbn [w_fs].
  destruct (is_empty_dir _ _); intros [= <- <-]; exists all_dirs;
    (split_and!; [done..|]).
  - cbn [snoc_event w_log]. by rewrite <-app_assoc.
  - cbn [w_log]. by rewrite app_nil_r.
Qed.

(** ** The directory pruner: which directories, in which order *)

Lemma remove_empty_dirs_outcome fuel dirs original_path dry fs0 :
  let r := run (remove_empty_dirs fuel dirs original_path dry) fs0 in
  (∃ dd, r.2 = Done dd) ∨ r = ({| w_fs := fs0; w_log := [] |}, Timeout).
Proof.
  intros r. subst r. unfold run.
  pose proof (remove_empty_dirs_ends fuel dirs original_path dry
                {| w_fs := fs0; w_log := [] |}) as H.
  destruct (remove_empty_dirs _ _ _ _ _) as [w [dd|e|]]; simpl in H.
  - left. by exists dd.
  - by destruct H.
  - right. by destruct H as [_ ->].
Qed.


(** X14. The pruner removes no directory but these: [original_path], in its
    final check; and, in its pass, an affected directory or a directory
    that the climb added, which is [dirname] applied once or more to an
    affected directory, exists on disk and is not the string
    [original_path]. *)
Theorem pruner_removes_affected_directories_or_parents
    (fuel : nat) (dirs : gset string) (original_path : string) (dry : bool)
    (fs0 : filesystem) (s : site) (p : string) :
  Removed s p ∈ w_log (run (remove_empty_dirs fuel dirs original_path dry) fs0).1 →
  (s = RootSite ∧ p = original_path)
  ∨ (s = DirSite ∧ pass_candidate fs0 dirs original_path p).
Proof.
  intros Hin.
  destruct (remove_empty_dirs_outcome fuel dirs original_path dry fs0)
    as [[dd Hdd]|Ht]; [|rewrite Ht in Hin; by apply elem_of_nil in Hin].
  destruct (run _ _) as [w o] eqn:Hr. simpl in *. subst o. unfold run in Hr.
  destruct dry.
  - apply remove_empty_dirs_dry in Hr as (all_dirs & _ & _ & _ & _ & Hl).
    simpl in Hl. rewrite Hl in Hin. exfalso.
    apply elem_of_app in Hin as [Hin|Hin].
    + apply list_elem_of_In, in_map_iff in Hin as (? & ? & _). done.
    + destruct (is_empty_dir fs0 original_path);
        [by apply list_elem_of_singleton in Hin|by apply elem_of_nil in Hin].
  - apply remove_empty_dirs_real in Hr
      as (all_dirs & pass & last & _ & Hall & Hpass & Hlast & _ & Hl).
    simpl in Hl, Hall. rewrite Hl in Hin.
    apply elem_of_app in Hin as [Hin|Hin];
      apply list_elem_of_fmap in Hin as (q & [= -> ->] & Hq).
    + right. split; [done|]. apply Hall, sorted_dirs_elem_of.
      by eapply sublist_subseteq.
    + left. split; [done|]. destruct Hlast as [-> | ->];
        [by apply elem_of_nil in Hq|by apply list_elem_of_singleton in Hq].
Qed.

Lemma pruner_removes_affected_directories_or_parents_witness :
  (DirSite = RootSite ∧ "/w/docs/sub" = "/w/docs")
  ∨ (DirSite = DirSite
     ∧ pass_candidate emptied_tree {["/w/docs/sub"]} "/w/docs" "/w/docs/sub").
Proof.
  apply (pruner_removes_affected_directories_or_parents 3 {["/w/docs/sub"]} "/w/docs"
           false emptied_tree DirSite "/w/docs/sub").
  vm_compute. left.
Defined.

(** X15. The list a real run of the pruner returns is what it removed, in
    the order of removal: first the directories of the pass, none of them
    before a directory with more separators in its path, then
    [original_path] if the final check removed it. *)
Theorem pruner_removes_deepest_first
    (fuel : nat) (dirs : gset string) (original_path : string) (fs0 : filesystem)
    (deleted_dirs : list string) :
  let r := run (remove_empty_dirs fuel dirs original_path false) fs0 in
  r.2 = Done deleted_dirs →
  ∃ pass last,
    deleted_dirs = pass ++ last
    ∧ StronglySorted deeper_first pass
    ∧ (last = [] ∨ last = [original_path])
    ∧ w_log r.1 = (Removed DirSite <$> pass) ++ (Removed RootSite <$> last).
Proof.
  intros r Hd. subst r. destruct (run _ _) as [w o] eqn:Hr. simpl in *. subst o.
  unfold run in Hr. apply remove_empty_dirs_real in Hr
    as (all_dirs & pass & last & _ & _ & Hpass & Hlast & -> & Hl).
  exists pass, last. split_and!; [done| |done..].
  eapply StronglySorted_sublist; [done|]. apply sorted_dirs_deepest_first.
Qed.

Lemma pruner_removes_deepest_first_witness :
  ∃ pass last,
    ["/w/docs/sub"; "/w/docs"] = pass ++ last
    ∧ StronglySorted deeper_first pass
    ∧ (last = [] ∨ last = ["/w/docs"])
    ∧ w_log (run (remove_empty_dirs 3 {["/w/docs/sub"]} "/w/docs" false)
               emptied_tree).1
      = (Removed DirSite <$> pass) ++ (Removed RootSite <$> last).
Proof.
  apply (pruner_removes_deepest_first 3 {["/w/docs/sub"]} "/w/docs" emptied_tree
           ["/w/docs/sub"; "/w/docs"]).
  vm_compute. reflexivity.
Defined.

(** X16. A dry run of the pruner that returns has changed nothing on disk
    and returns the empty list; it reports, in the order of the pass, the
    candidates that are directories without entries on the disk as it is,
    and then [original_path] if that is one, although a real run could
    empty and remove more. *)
Theorem pruner_dry_run_reports_empty_directories
    (fuel : nat) (dirs : gset string) (original_path : string) (fs0 : filesystem)
    (deleted_dirs : list string) :
  let r := run (remove_empty_dirs fuel dirs original_path true) fs0 in
  r.2 = Done deleted_dirs →
  deleted_dirs = []
  ∧ w_fs r.1 = fs0
  ∧ ∃ all_dirs,
      dirs ⊆ all_dirs
      ∧ (∀ p, p ∈ all_dirs → pass_candidate fs0 dirs original_path p)
      ∧ w_log r.1
        = map would_delete_dir (List.filter (is_empty_dir fs0) (sorted_dirs all_dirs))
          ++ (if is_empty_dir fs0 original_path
              then [would_delete_dir original_path] else []).
Proof.
  intros r Hd. subst r. destruct (run _ _) as [w o] eqn:Hr. simpl in *. subst o.
  unfold run in Hr. apply remove_empty_dirs_dry in Hr
    as (all_dirs & Hsub & Hall & -> & Hfs & Hl).
  split_and!; [done..|]. by exists all_dirs.
Qed.

Lemma pruner_dry_run_reports_empty_directories_witness :
  let r := run (remove_empty_dirs 3 {["/w/docs/sub"]} "/w/docs" true) emptied_tree in
  [] = @nil string
  ∧ w_fs r.1 = emptied_tree
  ∧ ∃ all_dirs,
      {["/w/docs/sub"]} ⊆ all_dirs
      ∧ (∀ p, p ∈ all_dirs →
              pass_candidate emptied_tree {["/w/docs/sub"]} "/w/docs" p)
      ∧ w_log r.1
        = map would_delete_dir
            (List.filter (is_empty_dir emptied_tree) (sorted_dirs all_dirs))
          ++ (if is_empty_dir emptied_tree "/w/docs"
              then [would_delete_dir "/w/docs"] else []).
Proof.
  apply (pruner_dry_run_reports_empty_directories 3 {["/w/docs/sub"]} "/w/docs"
           emptied_tree []).
  vm_compute. reflexivity.
Defined.






(** ** The pipeline *)

Lemma real_engine_log a2f f2a adm fs0 :
  let log := w_log (run (delete_unused_assets_and_pages a2f f2a adm false) fs0).1 in
  Forall is_removal log ∧ removed_dirs log = [].
Proof.
  intros log.
  assert (Forall (good_event a2f f2a adm false fs0) log) as Hall
    by apply (inv_events _ (engine_inv a2f f2a adm false fs0)).
  induction Hall as [|e l He Hl [IH1 IH2]]; [done|].
  destruct e as [[] p|[]]; simpl in He; try done; try (by destruct He).
  - split; [by constructor|done].
  - split; [by constructor|done].
Qed.

Lemma pruner_log_files (pass last : list string) :
  let l := (Removed DirSite <$> pass) ++ (Removed RootSite <$> last) in
  assets_of l = [] ∧ pages_of l = [] ∧ removed_dirs l = pass ++ last
  ∧ Forall is_removal l.
Proof.
  intros l. subst l. unfold assets_of, pages_of, removed_dirs.
  rewrite !omap_app. split_and!.
  - assert (∀ s (xs : list string), s ≠ AssetSite →
              omap (λ e, match e with Removed AssetSite p => Some p | _ => None end)
                   (Removed s <$> xs) = []) as H.
    { intros s xs Hs. induction xs as [|x xs IH]; [done|].
      rewrite fmap_cons. cbn [omap list_omap]. by destruct s. }
    by rewrite !H.
  - assert (∀ s (xs : list string), s ≠ PageSite →
              omap (λ e, match e with Removed PageSite p => Some p | _ => None end)
                   (Removed s <$> xs) = []) as H.
    { intros s xs Hs. induction xs as [|x xs IH]; [done|].
      rewrite fmap_cons. cbn [omap list_omap]. by destruct s. }
    by rewrite !H.
  - f_equal.
    + induction pass as [|x xs IH]; [done|]. rewrite fmap_cons. cbn [omap list_omap].
      by rewrite IH.
    + induction last as [|x xs IH]; [done|]. rewrite fmap_cons. cbn [omap list_omap].
      by rewrite IH.
  - apply Forall_app. split; apply Forall_fmap, Forall_true; done.
Qed.

Lemma labelled_snd (f : string → string) (l : list string) :
  (map (λ x, (f x, x)) l).*2 = l.
Proof.
  induction l as [|x xs IH]; [done|]. cbn [map]. rewrite fmap_cons. cbn [snd].
  by rewrite IH.
Qed.

(** X18. A real run of [execute] that returns has either found no document
    and printed only that, or it ends with the summary, and the summary
    lists what the run removed: the log before it holds removals only, its
    assets are the files removed as assets, each with a label among [image],
    [figure], [include], its pages are the files removed as pages, and its
    directories are the directories removed, all in the order of removal. *)
Theorem summary_lists_what_was_removed (fuel : nat) (root : string) (fs : filesystem) :
  let r := run (execute fuel {| path := root; dry_run := false |}) fs in
  r.2 = Done tt →
  (find_rst_files fs root = [] ∧ w_log r.1 = [Printed (NoRstFiles root)])
  ∨ ∃ l A P Dl,
      w_log r.1 = l ++ [Printed (Summary A P Dl)]
      ∧ Forall is_removal l
      ∧ A.*2 = assets_of l
      ∧ P = pages_of l
      ∧ Dl = removed_dirs l
      ∧ ∀ d p, (d, p) ∈ A → d ∈ DIRECTIVE_PATTERNS.
Proof.
  intros r. subst r. rewrite execute_eq. cbn [path dry_run].
  destruct (find_rst_files fs root) as [|rst rest] eqn:Hfind; [by left|].
  destruct (build_asset_index fuel fs (rst :: rest)) as [idx|] eqn:Hidx; [|done].
  set (a2f := asset_to_files idx). set (f2a := file_to_assets idx).
  set (adm := asset_directive_map idx).
  pose proof (real_engine_log a2f f2a adm fs) as [Hrem Hnodirs].
  pose proof (engine_done a2f f2a adm false fs) as Hdone.
  pose proof (engine_event a2f f2a adm false fs) as Hevent.
  destruct (run (delete_unused_assets_and_pages a2f f2a adm false) fs)
    as [w [d|e|]]; [|done..].
  destruct (Hdone d eq_refl) as [(Hp & Ha & Hdirs) _]. cbn [fst] in *.
  assert (∀ x p, (x, p) ∈ map (λ x, (default "asset" (adm !! x), x)) (deleted_assets d)
                 → x ∈ DIRECTIVE_PATTERNS) as Hlabels.
  { intros x p Hin. apply list_elem_of_In, in_map_iff in Hin as (q & [= <- ->] & Hq).
    apply list_elem_of_In in Hq. rewrite Ha in Hq. unfold assets_of in Hq.
    apply list_elem_of_omap in Hq as (e & He & Hsome).
    destruct e as [[] q|]; simplify_eq.
    apply Hevent in He as [_ ([D assets] & Hin & _ & Hq)].
    destruct (build_asset_index_facts _ _ _ _ Hidx) as (Hnodup & _ & _).
    apply (elem_get_NoDup _ _ _ Hnodup) in Hin.
    destruct (build_asset_index_directives _ _ _ _ _ _ _ Hidx Hin Hq) as (x & Hx & H).
    unfold adm. rewrite Hx. exact H. }
  unfold execute_tail, mbind, M_bind. cbn [dry_run].
  case_decide as Hnone.
  - intros _. right. cbn [fst print emit w_log].
    eexists (w_log w), _, _, _. split; [done|].
    split_and!; [done|by rewrite labelled_snd|done|by rewrite Hnodirs|exact Hlabels].
  - destruct (remove_empty_dirs _ _ _ _ _) as [w' [dd|e|]] eqn:Hpr; [|done..].
    apply remove_empty_dirs_real in Hpr
      as (all_dirs & pass & last & _ & _ & _ & _ & -> & Hl).
    destruct (pruner_log_files pass last) as (Ha' & Hp' & Hd' & Hr').
    intros _. right. cbn [fst print emit w_log]. rewrite Hl.
    eexists _, _, _, _. split; [done|].
    unfold assets_of, pages_of, removed_dirs in *. rewrite !(omap_app _ (w_log w)).
    rewrite Ha', Hp', Hd', Hnodirs, !app_nil_r.
    split_and!; [by apply Forall_app|by rewrite labelled_snd|done|done|exact Hlabels].
Qed.

Lemma summary_lists_what_was_removed_witness :
  let r := run (execute 3 {| path := "/w/docs"; dry_run := false |}) page_tree in
  (find_rst_files page_tree "/w/docs" = [] ∧ w_log r.1 = [Printed (NoRstFiles "/w/docs")])
  ∨ ∃ l A P Dl,
      w_log r.1 = l ++ [Printed (Summary A P Dl)]
      ∧ Forall is_removal l
      ∧ A.*2 = assets_of l
      ∧ P = pages_of l
      ∧ Dl = removed_dirs l
      ∧ ∀ d p, (d, p) ∈ A → d ∈ DIRECTIVE_PATTERNS.
Proof.
  apply (summary_lists_what_was_removed 3 "/w/docs" page_tree).
  vm_compute. reflexivity.
Defined.

(** X19. A dry run of [execute] always returns, given the recursion depth
    [enough_fuel] for the include expansion, and leaves the disk as it was:
    it never reaches [os.remove], which can raise, nor the climb of the
    pruner, which may not end. *)
Theorem dry_run_always_completes (fuel : nat) (root : string) (fs : filesystem) :
  enough_fuel fs (find_rst_files fs root) ≤ fuel →
  let r := run (execute fuel {| path := root; dry_run := true |}) fs in
  r.2 = Done tt ∧ w_fs r.1 = fs.
Proof.
  intros Hfuel r. subst r. rewrite execute_eq. cbn [path dry_run].
  destruct (find_rst_files fs root) as [|rst rest]; [done|].
  destruct (build_asset_index_total fs (rst :: rest) fuel Hfuel) as [idx ->].
  destruct (dry_engine_done (asset_to_files idx) (file_to_assets idx)
              (asset_directive_map idx) fs) as [d Hd].
  pose proof (dry_engine_no_dirs _ _ _ _ d Hd) as Hnone.
  pose proof (dry_engine_disk (asset_to_files idx) (file_to_assets idx)
                (asset_directive_map idx) fs) as Hdisk.
  destruct (run (delete_unused_assets_and_pages (asset_to_files idx)
                  (file_to_assets idx) (asset_directive_map idx) true) fs) as [w o].
  simpl in Hd, Hdisk. subst o.
  rewrite execute_tail_dry by done. split; [done|exact Hdisk].
Qed.

Lemma dry_run_always_completes_witness :
  let r := run (execute 64 {| path := "/w/docs"; dry_run := true |}) flat_tree in
  r.2 = Done tt ∧ w_fs r.1 = flat_tree.
Proof.
  apply (dry_run_always_completes 64 "/w/docs" flat_tree).
  vm_compute. lia.
Defined.

Lemma build_asset_index_outside fuel fs rst_files idx D assets :
  build_asset_index fuel fs rst_files = Some idx →
  Dict.get (file_to_assets idx) D = Some assets → assets ≠ ∅ → D ∈ rst_files.
Proof.
  intros Hidx Hget Hne. apply set_choose_L in Hne as [a Ha].
  destruct (build_asset_index_sound _ _ _ _ _ _ _ Hidx Hget Ha) as (D' & Hr & HD' & _).
  apply rtc_inv in Hr as [->|(y & (? & _) & _)]; done.
Qed.

Lemma engine_removal_accounted fuel fs rst_files idx original_path s p :
  build_asset_index fuel fs rst_files = Some idx →
  Removed s p
    ∈ w_log (run (delete_unused_assets_and_pages (asset_to_files idx)
                    (file_to_assets idx) (asset_directive_map idx) false) fs).1 →
  (s = AssetSite ∨ s = PageSite)
  ∧ ∀ log, accounted fs rst_files original_path log s p.
Proof.
  intros Hidx He. apply engine_event in He.
  destruct (build_asset_index_facts _ _ _ _ Hidx) as (Hnodup & _ & _).
  destruct s; simpl in He; try done.
  - destruct He as [_ ([D assets] & Hin & _ & Hp)]. split; [by left|]. intros log.
    apply (elem_get_NoDup _ _ _ Hnodup) in Hin.
    destruct (build_asset_index_sound _ _ _ _ _ _ _ Hidx Hin Hp) as (D' & _ & ? & ?).
    by exists D'.
  - destruct He as [_ (assets & Hin & Hne & _)]. split; [by right|]. intros log.
    apply (elem_get_NoDup _ _ _ Hnodup) in Hin.
    by eapply build_asset_index_outside.
Qed.

Lemma affected_above (log : list event) d p :
  d ∈ dirs_of log → d = p ∨ above d p →
  ∃ s' q, (s' = AssetSite ∨ s' = PageSite) ∧ Removed s' q ∈ log ∧ above q p.
Proof.
  unfold dirs_of. rewrite elem_of_list_to_set, list_elem_of_omap.
  intros (e & He & Hd) Hp.
  assert (∀ q, d = OsPath.dirname q → above q p) as Habove.
  { intros q ->. destruct Hp as [<-|[k Hk]]; [by exists 0|].
    exists (S k). by rewrite Nat.iter_succ_r. }
  destruct e as [[] q|]; simplify_eq.
  - exists AssetSite, q. split_and!; [by left|done|by apply Habove].
  - exists PageSite, q. split_and!; [by right|done|by apply Habove].
Qed.

(** X20. Whatever a real run of [execute] removes is accounted for, however
    the run ends: a file removed as a page is one of the documents
    [find_rst_files] found; a file removed as an asset is a direct reference
    of one of these documents; a directory removed in the pass of the pruner
    is [dirname], applied once or more, of a file the run removed; and the
    directory removed by the final check is the absolute path of the
    argument. *)
Theorem run_removes_documents_references_and_their_directories
    (fuel : nat) (root : string) (fs : filesystem) (s : site) (p : string) :
  let r := run (execute fuel {| path := root; dry_run := false |}) fs in
  Removed s p ∈ w_log r.1 →
  accounted fs (find_rst_files fs root) (OsPath.abspath (cwd fs) root) (w_log r.1) s p.
Proof.
  intros r. subst r. rewrite execute_eq. cbn [path dry_run].
  destruct (find_rst_files fs root) as [|rst rest] eqn:Hfind.
  { cbn. by intros [=]%list_elem_of_singleton. }
  destruct (build_asset_index fuel fs (rst :: rest)) as [idx|] eqn:Hidx;
    [|by intros ?%elem_of_nil].
  assert (∀ log,
            Removed s p
              ∈ w_log (run (delete_unused_assets_and_pages (asset_to_files idx)
                              (file_to_assets idx) (asset_directive_map idx) false)
                         fs).1 →
            accounted fs (rst :: rest) (OsPath.abspath (cwd fs) root) log s p)
    as Hengine.
  { intros log Hin.
    by apply (engine_removal_accounted fuel fs (rst :: rest) idx _ s p Hidx Hin). }
  pose proof (engine_done (asset_to_files idx) (file_to_assets idx)
                (asset_directive_map idx) false fs) as Hdone.
  destruct (run (delete_unused_assets_and_pages _ _ _ _) fs) as [w [d|e|]];
    cbn [fst] in *; [|by apply Hengine..].
  destruct (Hdone d eq_refl) as [(_ & _ & Hdirs) _].
  unfold execute_tail, mbind, M_bind. cbn [dry_run].
  case_decide as Hnone.
  - cbn [fst print emit w_log].
    intros [Hin|[=]%list_elem_of_singleton]%elem_of_app. by apply Hengine.
  - pose proof (remove_empty_dirs_ends fuel (affected_dirs d)
                  (OsPath.abspath (cwd fs) root) false w) as Hends.
    destruct (remove_empty_dirs _ _ _ _ _) as [w' [dd|e|]] eqn:Hpr; simpl in Hends;
      [|by destruct Hends|destruct Hends as [_ ->]; by apply Hengine].
    apply remove_empty_dirs_real in Hpr
      as (all_dirs & pass & last & _ & Hall & Hpass & Hlast & _ & Hl).
    cbn [fst print emit w_log]. rewrite Hl.
    intros [[Hin|[Hin|Hin]%elem_of_app]%elem_of_app|[=]%list_elem_of_singleton]%elem_of_app.
    + by apply Hengine.
    + apply list_elem_of_fmap in Hin as (q & [= -> ->] & Hq). cbn [accounted].
      apply (sublist_subseteq _ _ Hpass), sorted_dirs_elem_of, Hall in Hq.
      assert (∃ d0, d0 ∈ dirs_of (w_log w) ∧ (d0 = q ∨ above d0 q)) as (d0 & Hd0 & Hq').
      { rewrite <-Hdirs. destruct Hq as [?|(_ & _ & d0 & ? & ?)]; eauto. }
      destruct (affected_above _ _ _ Hd0 Hq') as (s' & q' & Hs' & Hin' & Hab).
      exists s', q'. split_and!; [done| |done].
      apply elem_of_app. left. apply elem_of_app. by left.
    + apply list_elem_of_fmap in Hin as (q & [= -> ->] & Hq). cbn [accounted].
      destruct Hlast as [-> | ->];
        [by apply elem_of_nil in Hq|by apply list_elem_of_singleton in Hq].
Qed.

Lemma run_removes_documents_references_and_their_directories_witness :
  accounted page_tree (find_rst_files page_tree "/w/docs")
    (OsPath.abspath (cwd page_tree) "/w/docs")
    (w_log (run (execute 3 {| path := "/w/docs"; dry_run := false |}) page_tree).1)
    DirSite "/w/docs/sub".
Proof.
  apply (run_removes_documents_references_and_their_directories 3 "/w/docs"
           page_tree DirSite "/w/docs/sub").
  vm_compute. right. right. left.
Defined.
